(** * squirrel.catalog.catalog: the versioned catalog and its set algebra

    A shallow embedding of [src/squirrel/catalog/catalog.py].

    - Python [int] is [Z]; [str] is [string]; a [dict] is a [gmap].
      A [gmap] is enumerated in key order where a Python [dict] is
      enumerated in insertion order; no statement below depends on the
      order of enumeration.
    - An exception is a value of [Exception]; code that may raise returns a
      [Result].
    - A method that mutates its receiver takes the receiver's state and
      returns the outcome together with the state it leaves behind ([M]).
    - Object identity of catalogs is a [CatalogRef]; [Catalog()] draws a fresh
      one from an allocation counter, threaded by the same monad [M]. *)

From stdpp Require Import gmap strings list fin_maps.
From Stdlib Require Import ZArith Lia.

#[local] Set Warnings "-clear-no-such-hyp".

Open Scope Z_scope.

(** ** Exceptions and results *)

Inductive Exception : Type :=
  | AssertionError
  | AttributeError
  | KeyError
  | TypeError
  | ValueError (msg : string).

Inductive Result (A : Type) : Type :=
  | Ok (a : A)
  | Raise (e : Exception).
Arguments Ok {A} a.
Arguments Raise {A} e.

#[global] Instance Result_ret : MRet Result := fun A a => Ok a.
#[global] Instance Result_bind : MBind Result := fun A B f m =>
  match m with
  | Ok a => f a
  | Raise e => Raise e
  end.

(** State and exceptions: the outcome and the state left behind.  A raise
    keeps the state reached so far, as a Python exception keeps the heap. *)
Definition M (S A : Type) : Type := S -> Result A * S.

#[global] Instance M_ret {S} : MRet (M S) := fun A a s => (Ok a, s).
#[global] Instance M_bind {S} : MBind (M S) := fun A B f m s =>
  match m s with
  | (Ok a, s') => f a s'
  | (Raise e, s') => (Raise e, s')
  end.

(** A computation that touches no state. *)
Definition lift {S A} (r : Result A) : M S A := fun s => (r, s).

(** Run a mutation of a local object: its final state, or the exception. *)
Definition exec {S} (m : M S unit) (s : S) : Result S :=
  match m s with
  | (Ok _, s') => Ok s'
  | (Raise e, _) => Raise e
  end.

(** [for x in xs: body], the loop state passed along; a raise leaves the loop. *)
Fixpoint for_each {A S} (xs : list A) (body : A -> S -> Result S) (s : S) : Result S :=
  match xs with
  | [] => Ok s
  | x :: xs' =>
      match body x s with
      | Ok s' => for_each xs' body s'
      | Raise e => Raise e
      end
  end.

(** [for x in xs: body], where the body may [return]: [Some r] when it
    returned [r], [None] when the loop ran to its end. *)
Fixpoint for_return {A R} (xs : list A) (body : A -> Result (option R)) : Result (option R) :=
  match xs with
  | [] => Ok None
  | x :: xs' =>
      match body x with
      | Ok None => for_return xs' body
      | Ok (Some r) => Ok (Some r)
      | Raise e => Raise e
      end
  end.

(** [for x in xs: t = body(x, t)], where the body runs in [M]. *)
Fixpoint for_each_M {A S T} (xs : list A) (body : A -> T -> M S T) (t : T) : M S T :=
  match xs with
  | [] => mret t
  | x :: xs' => t' ← body x t; for_each_M xs' body t'
  end.

(** [s.endswith(suffix)] *)
Definition str_endswith (s suffix : string) : bool :=
  if (String.length suffix <=? String.length s)%nat then
    String.eqb
      (String.substring (String.length s - String.length suffix) (String.length suffix) s)
      suffix
  else false.

(** ** CatalogKey *)

Module CatalogKey.
Record t : Type := mk { identifier : string; version : Z }.
End CatalogKey.

#[global] Instance CatalogKey_eq_dec : EqDecision CatalogKey.t.
Proof. solve_decision. Defined.

(** [CatalogKey(identifier)]: [version] defaults to -1. *)
Definition CatalogKey___new__ (identifier : string) : CatalogKey.t :=
  CatalogKey.mk identifier (-1).

(** Identity of a [Catalog] object. *)
Definition CatalogRef : Type := nat.

Section Catalog.

(** The values held by [driver_kwargs] and [metadata] are opaque to the
    catalog; [==] on them is decidable equality. *)
Context {Value : Type} `{!EqDecision Value}.

(** ** Source (squirrel.catalog.source, imported) *)

Record Source : Type := mkSource {
  driver_name : string;
  driver_kwargs : gmap string Value;
  metadata : gmap string Value;
}.

#[global] Instance Source_eq_dec : EqDecision Source.
Proof. solve_decision. Defined.

(** Modelled from the spec: [Source.__eq__] of squirrel.catalog.source, which
    is not part of this file.  Two Sources are equal iff all three fields are
    equal. *)
Definition Source___eq__ (self other : Source) : bool :=
  bool_decide (driver_name self = driver_name other)
  && bool_decide (driver_kwargs self = driver_kwargs other)
  && bool_decide (metadata self = metadata other).

(** ** CatalogSource *)

(** [cs_source] is the [Source] base object; the other three fields are
    [_identifier], [_version] and [_catalog], named after their read-only
    properties. *)
Record CatalogSource : Type := mkCatalogSource {
  cs_source : Source;
  identifier : string;
  version : Z;
  catalog : CatalogRef;
}.

#[global] Instance CatalogSource_eq_dec : EqDecision CatalogSource.
Proof. solve_decision. Defined.

(** [CatalogSource.__init__]; [version] defaults to 1 at the call sites that
    leave it out. *)
Definition CatalogSource___init__
    (source : Source) (identifier : string) (catalog : CatalogRef) (version : Z)
    : CatalogSource :=
  {| cs_source := {| driver_name := driver_name source;
                     driver_kwargs := driver_kwargs source;
                     metadata := metadata source |};
     identifier := identifier;
     version := version;
     catalog := catalog |}.

(** [CatalogSource.__eq__], for [other] a CatalogSource. *)
Definition CatalogSource___eq__ (self other : CatalogSource) : bool :=
  if negb (bool_decide (identifier self = identifier other)) then false
  else if negb (bool_decide (version self = version other)) then false
  else Source___eq__ (cs_source self) (cs_source other).

(** ** DummyCatalogSource *)

Record DummyCatalogSource : Type := mkDummyCatalogSource {
  _identifier : string;
  _catalog : CatalogRef;
}.

Definition DummyCatalogSource___init__ (identifier : string) (catalog : CatalogRef)
    : DummyCatalogSource :=
  {| _identifier := identifier; _catalog := catalog |}.

(** [DummyCatalogSource.__contains__] *)
Definition DummyCatalogSource___contains__ (self : DummyCatalogSource) (index : Z) : bool :=
  false.

(** ** Catalog *)

(** [_sources] maps an identifier to the versions held under it.  The object
    the code stores in [_sources[identifier]] is a CatalogSource; it is read
    only through subscripts, [in] and [.versions], all of which go to the
    versions mapping shared by the CatalogSources of one identifier, so that
    mapping is what the embedding stores. *)
Record Catalog : Type := mkCatalog {
  cat_ref : CatalogRef;
  _sources : gmap string (gmap Z CatalogSource);
}.

(** [Catalog()]: a fresh object with an empty [_sources]. *)
Definition Catalog___init__ : M CatalogRef Catalog :=
  fun next => (Ok {| cat_ref := next; _sources := ∅ |}, S next).

(** The read-only property [sources]. *)
Definition sources (self : Catalog) : gmap string (gmap Z CatalogSource) := _sources self.

(** [Catalog.__contains__] *)
Definition Catalog___contains__ (self : Catalog) (identifier : string) : bool :=
  bool_decide (identifier ∈ dom (_sources self)).

(** [Catalog.keys] *)
Definition Catalog_keys (self : Catalog) : list string := (map_to_list (sources self)).*1.

(** [Catalog.__len__] *)
Definition Catalog___len__ (self : Catalog) : nat := length (Catalog_keys self).

(** [d[k]] on a dict. *)
Definition dict_getitem {K V} `{Countable K} (d : gmap K V) (k : K) : Result V :=
  match d !! k with
  | Some v => Ok v
  | None => Raise KeyError
  end.

(** [max(d.keys())] on a dict with integer keys. *)
Definition max_key {V} (d : gmap Z V) : Result Z :=
  match (map_to_list d).*1 with
  | [] => Raise (ValueError "max() arg is an empty sequence")
  | k :: ks => Ok (foldr Z.max k ks)
  end.

(** Modelled from the spec: [CatalogSource.__getitem__], which catalog.py does
    not define.  A VersionedEntry maps a version to a CatalogSource; lookup
    with the sentinel -1 resolves to the entry with the numerically greatest
    version key present. *)
Definition CatalogSource___getitem__ (versions : gmap Z CatalogSource) (index : Z)
    : Result CatalogSource :=
  if bool_decide (index = -1) then
    m ← max_key versions; dict_getitem versions m
  else dict_getitem versions index.

(** Modelled from the spec: [CatalogSource.__contains__], which catalog.py does
    not define; whether a version is present under the identifier. *)
Definition CatalogSource___contains__ (versions : gmap Z CatalogSource) (index : Z) : bool :=
  bool_decide (index ∈ dom versions).

(** What [catalog[identifier]] evaluates to: a CatalogSource, together with
    the versions mapping it shares, or the placeholder. *)
Inductive Item : Type :=
  | Found (cs : CatalogSource) (versions : gmap Z CatalogSource)
  | NotFound (dummy : DummyCatalogSource).

(** [Catalog.__getitem__] *)
Definition Catalog___getitem__ (self : Catalog) (identifier : string) : Result Item :=
  if negb (Catalog___contains__ self identifier) then
    Ok (NotFound (DummyCatalogSource___init__ identifier (cat_ref self)))
  else
    entry ← dict_getitem (sources self) identifier;
    cs ← CatalogSource___getitem__ entry (-1);
    Ok (Found cs entry).

(** [Catalog.__iter__] (and [items]), the generator run to its end. *)
Definition Catalog___iter__ (self : Catalog) : Result (list (string * CatalogSource)) :=
  for_each (map_to_list (sources self))
    (fun '(k, v) acc => cs ← CatalogSource___getitem__ v (-1); Ok (acc ++ [(k, cs)]))
    [].

(** The new value of [_sources[identifier]] after a CatalogSource is stored
    there.  Modelled from the spec: a CatalogSource is created at a version
    and is the one version of its entry until others are assigned. *)
Definition stored (cs : CatalogSource) : gmap Z CatalogSource := {[ version cs := cs ]}.

(** [Catalog.__setitem__] *)
Definition Catalog___setitem__ (identifier : string) (value : Source) : M Catalog unit :=
  fun self =>
    (Ok (),
     {| cat_ref := cat_ref self;
        _sources := <[identifier := stored (CatalogSource___init__ value identifier (cat_ref self) 1)]>
                      (_sources self) |}).

(** [Catalog.__delitem__] *)
Definition Catalog___delitem__ (identifier : string) : M Catalog unit :=
  fun self =>
    match _sources self !! identifier with
    | Some _ => (Ok (), {| cat_ref := cat_ref self; _sources := delete identifier (_sources self) |})
    | None => (Raise KeyError, self)
    end.

(** [DummyCatalogSource.__setitem__]; the state is the catalog [self._catalog]
    refers to. *)
Definition DummyCatalogSource___setitem__
    (self : DummyCatalogSource) (index : Z) (value : Source) : M Catalog unit :=
  fun cat =>
    if negb (bool_decide (index > 0)) then (Raise AssertionError, cat)
    else
      (Ok (),
       {| cat_ref := cat_ref cat;
          _sources := <[_identifier self :=
                          stored (CatalogSource___init__ value (_identifier self) (_catalog self) index)]>
                        (_sources cat) |}).

(** Modelled from the spec: [CatalogSource.__setitem__], which catalog.py does
    not define.  [catalog[id][v] = source] on an identifier that exists puts
    a fresh CatalogSource at the caller-chosen version [v], a positive
    integer, next to the versions already there.  The state is the catalog
    [self.catalog] refers to. *)
Definition CatalogSource___setitem__
    (self : CatalogSource) (versions : gmap Z CatalogSource) (index : Z) (value : Source)
    : M Catalog unit :=
  fun cat =>
    if negb (bool_decide (index > 0)) then (Raise AssertionError, cat)
    else
      (Ok (),
       {| cat_ref := cat_ref cat;
          _sources := <[identifier self :=
                          <[index := CatalogSource___init__ value (identifier self) (catalog self) index]>
                            versions]>
                        (_sources cat) |}).

(** [item.versions] *)
Definition Item_versions (item : Item) : Result (gmap Z CatalogSource) :=
  match item with
  | Found _ versions => Ok versions
  | NotFound _ => Raise AttributeError
  end.

(** [item[index]] *)
Definition Item___getitem__ (item : Item) (index : Z) : Result CatalogSource :=
  match item with
  | Found _ versions => CatalogSource___getitem__ versions index
  | NotFound _ => Raise TypeError
  end.

(** [index in item] *)
Definition Item___contains__ (item : Item) (index : Z) : bool :=
  match item with
  | Found _ versions => CatalogSource___contains__ versions index
  | NotFound dummy => DummyCatalogSource___contains__ dummy index
  end.

(** [item[index] = value] *)
Definition Item___setitem__ (item : Item) (index : Z) (value : Source) : M Catalog unit :=
  match item with
  | Found cs versions => CatalogSource___setitem__ cs versions index value
  | NotFound dummy => DummyCatalogSource___setitem__ dummy index value
  end.

(** The statement [cat[k][ver_id] = value] on a local catalog [cat]. *)
Definition assign_version (k : string) (ver_id : Z) (value : Source) (cat : Catalog)
    : Result Catalog :=
  item ← Catalog___getitem__ cat k;
  exec (Item___setitem__ item ver_id value) cat.

(** ** Copy and the set algebra *)

(** Modelled from the spec: [Catalog.copy] goes through the YAML codec of
    squirrel.catalog.yaml, which is not part of this file.  The round trip
    gives a new catalog with the same identifiers, versions and Source
    payloads, whose CatalogSources belong to the new catalog. *)
Definition Catalog_copy (self : Catalog) : M CatalogRef Catalog :=
  ret ← Catalog___init__;
  mret {| cat_ref := cat_ref ret;
          _sources :=
            fmap (M := gmap Z)
              (fun cs => CatalogSource___init__ (cs_source cs) (identifier cs) (cat_ref ret) (version cs))
              <$> _sources self |}.

(** [Catalog.slice] *)
Definition Catalog_slice (self : Catalog) (keys : list string) : M CatalogRef Catalog :=
  cat_cp ← Catalog_copy self;
  cat ← Catalog___init__;
  lift (for_each keys (fun k cat =>
    item ← Catalog___getitem__ cat_cp k;
    versions ← Item_versions item;
    for_each (map_to_list versions).*1 (fun v cat =>
      item ← Catalog___getitem__ cat_cp k;
      value ← Item___getitem__ item v;
      assign_version k v (cs_source value) cat) cat) cat).

(** [Catalog.difference] *)
Definition Catalog_difference (self other : Catalog) : M CatalogRef Catalog :=
  cat1 ← Catalog_copy self;
  cat2 ← Catalog_copy other;
  new_cat ← Catalog___init__;
  lift (for_each [(cat1, cat2); (cat2, cat1)] (fun '(a_cat1, a_cat_2) new_cat =>
    for_each (Catalog_keys a_cat1) (fun k new_cat =>
      item ← Catalog___getitem__ a_cat1 k;
      versions ← Item_versions item;
      for_each (map_to_list versions) (fun '(ver_id, version) new_cat =>
        absent ← (if negb (Catalog___contains__ a_cat_2 k) then Ok true
                  else item2 ← Catalog___getitem__ a_cat_2 k;
                       Ok (negb (Item___contains__ item2 ver_id)));
        if absent : bool then assign_version k ver_id (cs_source version) new_cat
        else Ok new_cat) new_cat) new_cat) new_cat).

(** [Catalog.union] *)
Definition Catalog_union (self other : Catalog) : M CatalogRef Catalog :=
  cat ← Catalog_copy self;
  oth_cp ← Catalog_copy other;
  lift (for_each (Catalog_keys oth_cp) (fun k cat =>
    item ← Catalog___getitem__ oth_cp k;
    versions ← Item_versions item;
    for_each (map_to_list versions) (fun '(ver_id, version) cat =>
      assign_version k ver_id (cs_source version) cat) cat) cat).

(** [Catalog.intersection] *)
Definition Catalog_intersection (self other : Catalog) : M CatalogRef Catalog :=
  cat1 ← Catalog_copy self;
  cat2 ← Catalog_copy other;
  new_cat ← Catalog___init__;
  lift (for_each (Catalog_keys cat1) (fun k new_cat =>
    item ← Catalog___getitem__ cat1 k;
    versions ← Item_versions item;
    for_each (map_to_list versions) (fun '(ver_id, version) new_cat =>
      shared ← (if Catalog___contains__ cat2 k then
                  item2 ← Catalog___getitem__ cat2 k;
                  versions2 ← Item_versions item2;
                  Ok (bool_decide (ver_id ∈ dom versions2))
                else Ok false);
      if shared : bool then
        item1 ← Catalog___getitem__ cat1 k;
        a ← Item___getitem__ item1 ver_id;
        item2 ← Catalog___getitem__ cat2 k;
        b ← Item___getitem__ item2 ver_id;
        if negb (CatalogSource___eq__ a b) then Raise AssertionError
        else assign_version k ver_id (cs_source version) new_cat
      else Ok new_cat) new_cat) new_cat).

(** [Catalog.join] *)
Definition Catalog_join (self other : Catalog) : M CatalogRef Catalog :=
  common ← Catalog_intersection self other;
  if negb (bool_decide (Catalog___len__ common = 0%nat)) then lift (Raise AssertionError)
  else Catalog_union self other.

(** [Catalog.filter] *)
Definition Catalog_filter (self : Catalog) (predicate : CatalogSource -> bool)
    : M CatalogRef Catalog :=
  cat1 ← Catalog_copy self;
  new_cat ← Catalog___init__;
  lift (for_each (Catalog_keys cat1) (fun k new_cat =>
    item ← Catalog___getitem__ cat1 k;
    versions ← Item_versions item;
    for_each (map_to_list versions) (fun '(ver_id, version) new_cat =>
      if predicate version then assign_version k ver_id (cs_source version) new_cat
      else Ok new_cat) new_cat) new_cat).

(** [Catalog.__eq__], for [other] a Catalog. *)
Definition Catalog___eq__ (self other : Catalog) : M CatalogRef bool :=
  diff ← Catalog_difference self other;
  if bool_decide (0 < Catalog___len__ diff)%nat then mret false
  else
    lift (
      returned ← for_return (Catalog_keys self) (fun k =>
        item ← Catalog___getitem__ self k;
        versions ← Item_versions item;
        for_return (map_to_list versions).*1 (fun v =>
          item1 ← Catalog___getitem__ self k;
          a ← Item___getitem__ item1 v;
          item2 ← Catalog___getitem__ other k;
          b ← Item___getitem__ item2 v;
          if negb (CatalogSource___eq__ a b) then Ok (Some false) else Ok None));
      Ok (default true returned)).

(** ** Loading *)

(** [Catalog.from_plugins]; [plugins] is what the plugin manager's hook
    [squirrel_sources()] returns. *)
Definition Catalog_from_plugins (plugins : list (list (CatalogKey.t * Source)))
    : M CatalogRef Catalog :=
  ret ← Catalog___init__;
  lift (for_each plugins (fun plugin ret =>
    for_each plugin (fun '(s_key, source) ret =>
      assign_version (CatalogKey.identifier s_key) (CatalogKey.version s_key) source ret)
      ret) ret).

(** [Catalog.from_files]; [read_catalog file] stands for the collaborators of
    one turn of the loop, [get_fs_from_url(file)], [fs.open(file)],
    [fh.read()] and [Catalog.from_str], which are not part of catalog.py. *)
Definition Catalog_from_files
    (read_catalog : string -> M CatalogRef Catalog) (paths : list string)
    : M CatalogRef Catalog :=
  cat ← Catalog___init__;
  for_each_M paths (fun file cat =>
    new_cat ← read_catalog file;
    Catalog_join cat new_cat) cat.

(** [Catalog.from_dirs]; [ls path] stands for [get_fs_from_url(path).ls(path)]. *)
Definition Catalog_from_dirs
    (ls : string -> Result (list string))
    (read_catalog : string -> M CatalogRef Catalog) (paths : list string)
    : M CatalogRef Catalog :=
  files ← lift (for_each paths (fun path files =>
             listing ← ls path;
             let a_files := filter (fun f => str_endswith f ".yaml" = true) listing in
             Ok (files ++ a_files)) []);
  Catalog_from_files read_catalog files.

(** ** Driver resolution *)

(** A driver type contributed by a plugin (squirrel.driver, imported): its
    declared [name], and what calling it with the catalog and the keyword
    arguments gives. *)
Context {Driver : Type}.

Record DriverCls : Type := mkDriverCls {
  name : string;
  DriverCls___call__ : CatalogRef -> gmap string Value -> Result Driver;
}.

(** [{**a, **b}]: the entries of [b] on top of those of [a]. *)
Definition dict_merge (a b : gmap string Value) : gmap string Value := b ∪ a.

(** [CatalogSource.get_driver]; [plugins] is what the plugin manager's hook
    [squirrel_drivers()] returns.  The inner loop gives [None] when it ends
    without returning. *)
Fixpoint get_driver_in_plugin
    (self : CatalogSource) (kwargs : gmap string Value) (plugin : list DriverCls)
    : option (Result Driver) :=
  match plugin with
  | [] => None
  | driver_cls :: rest =>
      if bool_decide (name driver_cls = driver_name (cs_source self)) then
        Some (DriverCls___call__ driver_cls (catalog self)
                (dict_merge (driver_kwargs (cs_source self)) kwargs))
      else get_driver_in_plugin self kwargs rest
  end.

Fixpoint get_driver_in_plugins
    (self : CatalogSource) (kwargs : gmap string Value) (plugins : list (list DriverCls))
    : Result Driver :=
  match plugins with
  | [] => Raise (ValueError ("Driver " +:+ driver_name (cs_source self) +:+ " not found."))
  | plugin :: rest =>
      match get_driver_in_plugin self kwargs plugin with
      | Some returned => returned
      | None => get_driver_in_plugins self kwargs rest
      end
  end.

Definition CatalogSource_get_driver
    (plugins : list (list DriverCls)) (self : CatalogSource) (kwargs : gmap string Value)
    : Result Driver :=
  get_driver_in_plugins self kwargs plugins.

(** ** Catalogs as sets of (identifier, version) pairs *)

(** The CatalogSource stored under the pair [(k, v)], if any. *)
Definition Catalog_lookup (C : Catalog) (k : string) (v : Z) : option CatalogSource :=
  _sources C !! k ≫= fun versions => versions !! v.

(** The pair [(k, v)] is present in [C]. *)
Definition has_pair (C : Catalog) (k : string) (v : Z) : Prop :=
  is_Some (Catalog_lookup C k v).

(** The Source payload (driver name, driver kwargs, metadata) of a pair. *)
Definition payload (C : Catalog) (k : string) (v : Z) : option Source :=
  cs_source <$> Catalog_lookup C k v.

(** No (identifier, version) pair is present in both catalogs. *)
Definition Catalog_disjoint (A B : Catalog) : Prop :=
  ∀ k v, ¬ (has_pair A k v ∧ has_pair B k v).

(** The invariant of a catalog object: an identifier that is present holds
    at least one version, versions are positive, and the CatalogSource stored
    under [(k, v)] carries [k], [v] and its catalog. *)
Definition Catalog_wf (C : Catalog) : Prop :=
  ∀ k versions, _sources C !! k = Some versions →
    versions ≠ ∅ ∧
    ∀ v cs, versions !! v = Some cs →
      0 < v ∧ identifier cs = k ∧ version cs = v ∧ catalog cs = cat_ref C.

(** What the collaborators of [from_files] give for each file of [paths]:
    reading it raises nothing and gives a well-formed catalog with the
    contents of [loaded file]. *)
Definition reads (read_catalog : string → M CatalogRef Catalog) (loaded : string → Catalog)
    (paths : list string) : Prop :=
  ∀ file n, file ∈ paths →
    ∃ c n', read_catalog file n = (Ok c, n') ∧ Catalog_wf c ∧
      ∀ k v, payload c k v = payload (loaded file) k v.

(** [cs] is the CatalogSource of the numerically greatest version under [k]. *)
Definition is_latest (C : Catalog) (k : string) (cs : CatalogSource) : Prop :=
  ∃ versions, _sources C !! k = Some versions ∧
    versions !! version cs = Some cs ∧
    ∀ v, is_Some (versions !! v) → v ≤ version cs.

(** The catalog after [cat[k][v] = value] has run without raising. *)
Definition put (k : string) (v : Z) (value : Source) (cat : Catalog) : Catalog :=
  {| cat_ref := cat_ref cat;
     _sources := <[k := <[v := CatalogSource___init__ value k (cat_ref cat) v]>
                           (default ∅ (_sources cat !! k))]> (_sources cat) |}.

(** The loops of the set algebra have one shape: for every identifier of a
    source catalog, for every version under it, raise on a [bad] pair and
    otherwise copy the pair into the result when it passes the guard [g]. *)
Definition copy_step (bad g : string → Z → bool) (e : Exception)
    (k : string) (x : Z * CatalogSource) (acc : Catalog) : Result Catalog :=
  if bad k x.1 then Raise e
  else if g k x.1 then assign_version k x.1 (cs_source x.2) acc
  else Ok acc.

Definition copy_loop (bad g : string → Z → bool) (e : Exception)
    (src : Catalog) (ks : list string) (acc : Catalog) : Result Catalog :=
  for_each ks (fun k acc =>
    item ← Catalog___getitem__ src k;
    versions ← Item_versions item;
    for_each (map_to_list versions) (copy_step bad g e k) acc) acc.

(** The pair [(k, v)] is present in [other]. *)
Definition shared_pair (other : Catalog) (k : string) (v : Z) : bool :=
  bool_decide (is_Some (Catalog_lookup other k v)).

(** Both catalogs hold the pair [(k, v)], with CatalogSources that are not [==]. *)
Definition conflicting_pair (cat1 cat2 : Catalog) (k : string) (v : Z) : bool :=
  match Catalog_lookup cat1 k v, Catalog_lookup cat2 k v with
  | Some a, Some b => negb (CatalogSource___eq__ a b)
  | _, _ => false
  end.

End Catalog.

(** * Examples

    Concrete catalogs, with strings as payload values. *)

Definition source_csv : Source (Value := string) :=
  {| driver_name := "csv"; driver_kwargs := {[ "path" := "a.csv" ]}; metadata := ∅ |}.

Definition source_json : Source (Value := string) :=
  {| driver_name := "json"; driver_kwargs := {[ "path" := "a.json" ]}; metadata := ∅ |}.

(** [cat = Catalog(); cat["ds1"] = source_csv; cat["ds1"][2] = source_json] *)
Definition cat_ds1 : Catalog (Value := string) :=
  put "ds1" 2 source_json
    (Catalog___setitem__ "ds1" source_csv {| cat_ref := 0%nat; _sources := ∅ |}).2.

(** [cat = Catalog(); cat["ds2"][1] = source_csv] *)
Definition cat_ds2 : Catalog (Value := string) :=
  put "ds2" 1 source_csv {| cat_ref := 1%nat; _sources := ∅ |}.

(** [cat = Catalog(); cat["ds1"][1] = source_csv]: agrees with [cat_ds1]. *)
Definition cat_same : Catalog (Value := string) :=
  put "ds1" 1 source_csv {| cat_ref := 2%nat; _sources := ∅ |}.

(** [cat = Catalog(); cat["ds1"][1] = source_json]: disagrees with [cat_ds1]. *)
Definition cat_other : Catalog (Value := string) :=
  put "ds1" 1 source_json {| cat_ref := 3%nat; _sources := ∅ |}.

(** A plugin registry with the driver types "csv" and "json"; a driver
    instance records the type's name and what it was called with. *)
Definition csv_driver : DriverCls (Value := string) (Driver := string * CatalogRef * gmap string string) :=
  {| name := "csv"; DriverCls___call__ := fun catalog kwargs => Ok ("csv", catalog, kwargs) |}.

Definition json_driver : DriverCls (Value := string) (Driver := string * CatalogRef * gmap string string) :=
  {| name := "json"; DriverCls___call__ := fun catalog kwargs => Ok ("json", catalog, kwargs) |}.

Definition registry : list (list (DriverCls (Value := string)
                                    (Driver := string * CatalogRef * gmap string string))) :=
  [[csv_driver]; [json_driver]].

Definition nonexistent_source : CatalogSource (Value := string) :=
  CatalogSource___init__
    {| driver_name := "nonexistent"; driver_kwargs := ∅; metadata := ∅ |} "ds3" 0%nat 1.

(** Two files, read as copies of [cat_ds1] and [cat_ds2]. *)
Definition example_loaded (file : string) : Catalog (Value := string) :=
  if String.eqb file "a.yaml" then cat_ds1 else cat_ds2.

Definition example_read (file : string) : M CatalogRef (Catalog (Value := string)) :=
  Catalog_copy (example_loaded file).

(** Plugin contributions: "ds1" at version 1 twice, and "ds2" at version 3. *)
Definition example_plugins : list (list (CatalogKey.t * Source (Value := string))) :=
  [[(CatalogKey.mk "ds1" 1, source_csv); (CatalogKey.mk "ds2" 3, source_csv)];
   [(CatalogKey.mk "ds1" 1, source_json)]].

(** * Properties *)

Section Properties.

Context {Value : Type} `{!EqDecision Value} {Driver : Type}.

#[local] Abbreviation Source := (Source (Value := Value)).
#[local] Abbreviation CatalogSource := (CatalogSource (Value := Value)).
#[local] Abbreviation Catalog := (Catalog (Value := Value)).
#[local] Abbreviation Item := (Item (Value := Value)).
#[local] Abbreviation DriverCls := (DriverCls (Value := Value) (Driver := Driver)).

(** ** Loops *)

Lemma for_each_app {A S} (l1 l2 : list A) (body : A → S → Result S) (s : S) :
  for_each (l1 ++ l2) body s = for_each l1 body s ≫= for_each l2 body.
Proof.
  revert s. induction l1 as [|x l1 IH]; intros s; simpl; [done|].
  destruct (body x s); simpl; [apply IH | done].
Qed.

Lemma for_each_ext {A S} (l : list A) (body1 body2 : A → S → Result S) (s : S) :
  (∀ x s', x ∈ l → body1 x s' = body2 x s') →
  for_each l body1 s = for_each l body2 s.
Proof.
  revert s. induction l as [|x l IH]; intros s Hext; simpl; [done|].
  rewrite Hext by left. destruct (body2 x s); [|done].
  apply IH. intros y s' Hy. apply Hext. by right.
Qed.

Lemma for_each_fmap {A B S} (f : A → B) (l : list A) (body : B → S → Result S) (s : S) :
  for_each (f <$> l) body s = for_each l (fun x => body (f x)) s.
Proof.
  revert s. induction l as [|x l IH]; intros s; simpl; [done|].
  destruct (body (f x) s); [apply IH | done].
Qed.

(** ** Sources *)

Lemma cs_source_init (value : Source) k r v :
  cs_source (CatalogSource___init__ value k r v) = value.
Proof. by destruct value. Qed.

Lemma Source___eq___spec (a b : Source) : Source___eq__ a b = true ↔ a = b.
Proof.
  unfold Source___eq__. rewrite !andb_true_iff, !bool_decide_eq_true.
  destruct a, b; simpl; split; [intros [[-> ->] ->]; done | intros [= -> -> ->]; done].
Qed.

Lemma CatalogSource___eq___spec (a b : CatalogSource) :
  CatalogSource___eq__ a b = true ↔
  identifier a = identifier b ∧ version a = version b ∧ cs_source a = cs_source b.
Proof.
  unfold CatalogSource___eq__.
  destruct (bool_decide_reflect (identifier a = identifier b)); simpl; [|naive_solver].
  destruct (bool_decide_reflect (version a = version b)); simpl; [|naive_solver].
  rewrite Source___eq___spec. naive_solver.
Qed.

(** ** The greatest version *)

Lemma foldr_max_spec (k : Z) (ks : list Z) :
  foldr Z.max k ks ∈ k :: ks ∧ ∀ x, x ∈ k :: ks → x ≤ foldr Z.max k ks.
Proof.
  induction ks as [|y ks [IHin IHmax]]; simpl.
  - split; [by left|]. intros x ->%list_elem_of_singleton. lia.
  - split.
    + destruct (Z.max_spec y (foldr Z.max k ks)) as [[_ ->]|[_ ->]].
      * apply elem_of_cons in IHin as [->|?]; [by left | by do 2 right].
      * right; by left.
    + intros x Hx. apply elem_of_cons in Hx as [->|Hx].
      * specialize (IHmax k ltac:(by left)). lia.
      * apply elem_of_cons in Hx as [->|Hx]; [lia|].
        specialize (IHmax x ltac:(by right)). lia.
Qed.

Lemma max_key_spec {V} (d : gmap Z V) :
  d ≠ ∅ →
  ∃ m, max_key d = Ok m ∧ is_Some (d !! m) ∧ ∀ v, is_Some (d !! v) → v ≤ m.
Proof.
  intros Hne. unfold max_key.
  assert (Hin : ∀ v, v ∈ (map_to_list d).*1 ↔ is_Some (d !! v)).
  { intros v. rewrite list_elem_of_fmap. split.
    - intros [[v' x] [-> H%elem_of_map_to_list]]. by exists x.
    - intros [x Hx]. exists (v, x). by rewrite elem_of_map_to_list. }
  destruct ((map_to_list d).*1) as [|k ks] eqn:Hl.
  - exfalso. apply Hne, map_to_list_empty_iff.
    by apply fmap_nil_inv in Hl.
  - destruct (foldr_max_spec k ks) as [H1 H2].
    exists (foldr Z.max k ks). split; [done|].
    split; [by apply Hin | intros v Hv; by apply H2, Hin].
Qed.

Lemma max_key_empty {V} : max_key (∅ : gmap Z V) = Raise (ValueError "max() arg is an empty sequence").
Proof. unfold max_key. by rewrite map_to_list_empty. Qed.

(** ** Subscripts *)

Lemma Catalog___contains___spec (C : Catalog) (k : string) :
  Catalog___contains__ C k = true ↔ is_Some (_sources C !! k).
Proof. unfold Catalog___contains__. by rewrite bool_decide_eq_true, elem_of_dom. Qed.

Lemma Catalog___contains___false (C : Catalog) (k : string) :
  Catalog___contains__ C k = false ↔ _sources C !! k = None.
Proof.
  rewrite <-not_true_iff_false, Catalog___contains___spec, <-eq_None_not_Some. done.
Qed.

Lemma getitem_notfound (C : Catalog) (k : string) :
  _sources C !! k = None →
  Catalog___getitem__ C k = Ok (NotFound {| _identifier := k; _catalog := cat_ref C |}).
Proof.
  intros H%Catalog___contains___false. unfold Catalog___getitem__. by rewrite H.
Qed.

Lemma getitem_latest (versions : gmap Z CatalogSource) :
  versions ≠ ∅ →
  ∃ cs m, CatalogSource___getitem__ versions (-1) = Ok cs ∧ versions !! m = Some cs ∧
    ∀ v, is_Some (versions !! v) → v ≤ m.
Proof.
  intros Hne. destruct (max_key_spec versions Hne) as (m & Hm & [cs Hcs] & Hmax).
  exists cs, m. unfold CatalogSource___getitem__. simpl.
  rewrite Hm. simpl. unfold dict_getitem. by rewrite Hcs.
Qed.

Lemma getitem_found (C : Catalog) (k : string) versions :
  Catalog_wf C → _sources C !! k = Some versions →
  ∃ cs, Catalog___getitem__ C k = Ok (Found cs versions) ∧
    versions !! version cs = Some cs ∧
    (∀ v, is_Some (versions !! v) → v ≤ version cs) ∧
    identifier cs = k ∧ catalog cs = cat_ref C.
Proof.
  intros Hwf Hk. destruct (Hwf k versions Hk) as [Hne Hvs].
  destruct (getitem_latest versions Hne) as (cs & m & Hget & Hm & Hmax).
  destruct (Hvs m cs Hm) as (_ & Hid & Hver & Hcat).
  exists cs. unfold Catalog___getitem__.
  assert (Catalog___contains__ C k = true) as -> by (apply Catalog___contains___spec; eauto).
  simpl. unfold sources, dict_getitem. rewrite Hk. simpl. rewrite Hget. simpl.
  rewrite Hver. done.
Qed.

Lemma getitem_version (versions : gmap Z CatalogSource) (v : Z) :
  v ≠ -1 → CatalogSource___getitem__ versions v = dict_getitem versions v.
Proof. intros. unfold CatalogSource___getitem__. by rewrite bool_decide_eq_false_2. Qed.

(** ** Assignment of a version *)

Lemma Catalog_lookup_put k v (value : Source) (cat : Catalog) k' v' :
  Catalog_lookup (put k v value cat) k' v' =
  if decide (k' = k ∧ v' = v) then Some (CatalogSource___init__ value k (cat_ref cat) v)
  else Catalog_lookup cat k' v'.
Proof.
  unfold Catalog_lookup, put. simpl.
  destruct (decide (k' = k)) as [->|Hk].
  - rewrite lookup_insert_eq. simpl.
    destruct (decide (v' = v)) as [->|Hv].
    + rewrite lookup_insert_eq. by rewrite decide_True.
    + rewrite lookup_insert_ne by done. rewrite decide_False by naive_solver.
      destruct (_sources cat !! k); simpl; [done | by rewrite lookup_empty].
  - rewrite lookup_insert_ne by done. by rewrite decide_False by naive_solver.
Qed.

Lemma put_wf k v (value : Source) (cat : Catalog) : Catalog_wf cat → 0 < v → Catalog_wf (put k v value cat).
Proof.
  intros Hwf Hv k' versions. unfold put. simpl.
  destruct (decide (k' = k)) as [->|Hk].
  - rewrite lookup_insert_eq. intros [= <-]. split.
    + apply insert_non_empty.
    + intros v' cs. destruct (decide (v' = v)) as [->|Hne].
      * rewrite lookup_insert_eq. intros [= <-]. done.
      * rewrite lookup_insert_ne by done.
        destruct (_sources cat !! k) as [vs|] eqn:E; simpl; [|by rewrite lookup_empty].
        apply (Hwf k vs E).
  - rewrite lookup_insert_ne by done. apply Hwf.
Qed.

Lemma assign_version_ok k v (value : Source) (cat : Catalog) :
  Catalog_wf cat → 0 < v → assign_version k v value cat = Ok (put k v value cat).
Proof.
  intros Hwf Hv. unfold assign_version.
  destruct (_sources cat !! k) as [versions|] eqn:Hk.
  - destruct (getitem_found cat k versions Hwf Hk) as (cs & -> & _ & _ & Hid & Hcat).
    simpl. unfold exec, CatalogSource___setitem__.
    rewrite bool_decide_eq_true_2 by lia. simpl.
    unfold put. by rewrite Hid, Hcat, Hk.
  - rewrite (getitem_notfound cat k Hk). simpl.
    unfold exec, DummyCatalogSource___setitem__.
    rewrite bool_decide_eq_true_2 by lia. simpl.
    unfold put, stored. rewrite Hk. simpl. by rewrite insert_empty.
Qed.

Lemma assign_version_nonpositive k v (value : Source) (cat : Catalog) :
  Catalog_wf cat → v ≤ 0 → assign_version k v value cat = Raise AssertionError.
Proof.
  intros Hwf Hv. unfold assign_version.
  destruct (_sources cat !! k) as [versions|] eqn:Hk.
  - destruct (getitem_found cat k versions Hwf Hk) as (cs & -> & _).
    simpl. unfold exec, CatalogSource___setitem__.
    by rewrite bool_decide_eq_false_2 by lia.
  - rewrite (getitem_notfound cat k Hk). simpl.
    unfold exec, DummyCatalogSource___setitem__.
    by rewrite bool_decide_eq_false_2 by lia.
Qed.

(** ** The invariant is kept by every way of writing to a catalog *)

Lemma Catalog_wf_empty (r : CatalogRef) :
  Catalog_wf ({| cat_ref := r; _sources := ∅ |} : Catalog).
Proof. intros k versions. simpl. by rewrite lookup_empty. Qed.

Lemma Catalog___setitem___wf (C : Catalog) k (value : Source) :
  Catalog_wf C → Catalog_wf (Catalog___setitem__ k value C).2.
Proof.
  intros Hwf k' versions. simpl.
  destruct (decide (k' = k)) as [->|Hne].
  - rewrite lookup_insert_eq. intros [= <-]. unfold stored. simpl. split.
    + apply insert_non_empty.
    + intros v cs [<- <-]%lookup_singleton_Some. simpl. done.
  - rewrite lookup_insert_ne by done. apply Hwf.
Qed.

Lemma Catalog___delitem___wf (C : Catalog) k :
  Catalog_wf C → Catalog_wf (Catalog___delitem__ k C).2.
Proof.
  intros Hwf. unfold Catalog___delitem__.
  destruct (_sources C !! k); simpl; [|done].
  intros k' versions. simpl. intros [_ Hk']%lookup_delete_Some. by apply Hwf.
Qed.

Lemma Item___setitem___wf (C : Catalog) k item index (value : Source) :
  Catalog_wf C → Catalog___getitem__ C k = Ok item →
  Catalog_wf (Item___setitem__ item index value C).2.
Proof.
  intros Hwf Hget.
  destruct (decide (0 < index)) as [Hpos|Hneg].
  - pose proof (assign_version_ok k index value C Hwf Hpos) as Hrun.
    unfold assign_version in Hrun. rewrite Hget in Hrun. simpl in Hrun.
    unfold exec in Hrun.
    destruct (Item___setitem__ item index value C) as [[[]|e] C']; simpl; [|done].
    injection Hrun as ->. by apply put_wf.
  - destruct item as [cs versions|dummy]; simpl;
      unfold CatalogSource___setitem__, DummyCatalogSource___setitem__;
      by rewrite bool_decide_eq_false_2 by lia.
Qed.

(** ** The copying loops *)

Lemma copy_step_spec bad g e k (versions : gmap Z CatalogSource) l (acc : Catalog) :
  (∀ v cs, (v, cs) ∈ l → versions !! v = Some cs ∧ 0 < v) →
  Catalog_wf acc →
  (∃ acc', for_each l (copy_step bad g e k) acc = Ok acc' ∧
     Catalog_wf acc' ∧ cat_ref acc' = cat_ref acc ∧
     (∀ v cs, (v, cs) ∈ l → bad k v = false) ∧
     (∀ v cs, (v, cs) ∈ l → g k v = true →
        Catalog_lookup acc' k v =
        Some (CatalogSource___init__ (cs_source cs) k (cat_ref acc) v)) ∧
     (∀ k' v', k' ≠ k ∨ v' ∉ l.*1 ∨ g k v' = false →
        Catalog_lookup acc' k' v' = Catalog_lookup acc k' v'))
  ∨ (for_each l (copy_step bad g e k) acc = Raise e ∧
     ∃ v cs, (v, cs) ∈ l ∧ bad k v = true).
Proof.
  revert acc. induction l as [|[v0 cs0] l IH]; intros acc Hl Hwf.
  - left. exists acc. simpl. do 3 (split; [done|]). split; [|split].
    + by intros v cs ?%elem_of_nil.
    + by intros v cs ?%elem_of_nil.
    + done.
  - destruct (Hl v0 cs0 ltac:(by left)) as [Hv0 Hpos].
    assert (Hl' : ∀ v cs, (v, cs) ∈ l → versions !! v = Some cs ∧ 0 < v).
    { intros v cs Hin. apply Hl. by right. }
    assert (Hcs : copy_step bad g e k (v0, cs0) acc =
                  if bad k v0 then Raise e
                  else if g k v0 then assign_version k v0 (cs_source cs0) acc
                  else Ok acc) by done.
    simpl. rewrite Hcs. clear Hcs.
    destruct (bad k v0) eqn:Hbad.
    { right. split; [done|]. exists v0, cs0. split; [by left | done]. }
    assert (Hstep : ∃ acc1,
      (if g k v0 then assign_version k v0 (cs_source cs0) acc else Ok acc) = Ok acc1 ∧
      Catalog_wf acc1 ∧ cat_ref acc1 = cat_ref acc ∧
      (g k v0 = true →
         Catalog_lookup acc1 k v0 =
         Some (CatalogSource___init__ (cs_source cs0) k (cat_ref acc) v0)) ∧
      (∀ k' v', k' ≠ k ∨ v' ≠ v0 ∨ g k v' = false →
         Catalog_lookup acc1 k' v' = Catalog_lookup acc k' v')).
    { destruct (g k v0) eqn:Hg.
      - exists (put k v0 (cs_source cs0) acc).
        split; [by apply assign_version_ok|].
        split; [by apply put_wf|]. split; [done|]. split.
        + intros _. rewrite Catalog_lookup_put. by rewrite decide_True.
        + intros k' v' Hne. rewrite Catalog_lookup_put.
          rewrite decide_False; [done|]. intros [-> ->].
          destruct Hne as [?|[?|?]]; congruence.
      - exists acc. by do 4 (split; [done|]). }
    destruct Hstep as (acc1 & -> & Hwf1 & Href1 & Hnew1 & Hold1).
    destruct (IH acc1 Hl' Hwf1)
      as [(acc' & Hrun & Hwf' & Href' & Hnobad & Hnew & Hold)
         |(Hrun & v & cs & Hin & Hb)].
    + left. exists acc'. split; [done|]. split; [done|].
      split; [congruence|]. split; [|split].
      * intros v cs [[= -> ->]|Hin]%elem_of_cons; [done | by eapply Hnobad].
      * intros v cs Hin Hg. rewrite <-Href1.
        destruct (decide (v ∈ l.*1)) as [Hvl|Hvl].
        -- apply list_elem_of_fmap in Hvl as [[v' cs'] [Hv' Hin']]. simpl in Hv'. subst v'.
           assert (cs' = cs) as ->.
           { destruct (Hl v cs Hin) as [H1 _]. destruct (Hl' v cs' Hin') as [H2 _]. congruence. }
           by apply Hnew.
        -- apply elem_of_cons in Hin as [[= -> ->]|Hin].
           ++ rewrite Hold by auto. rewrite Href1. by apply Hnew1.
           ++ exfalso. apply Hvl. apply list_elem_of_fmap. by exists (v, cs).
      * intros k' v' Hne. rewrite Hold, Hold1; [done| |].
        -- destruct Hne as [?|[Hnin|?]]; [by left| |by right; right].
           right; left. intros ->. apply Hnin. simpl. by left.
        -- destruct Hne as [?|[Hnin|?]]; [by left| |by right; right].
           right; left. intros Hin. apply Hnin. simpl. by right.
    + right. split; [done|]. exists v, cs. split; [by right | done].
Qed.

Lemma copy_loop_spec bad g e (src : Catalog) ks (acc : Catalog) :
  Catalog_wf src →
  (∀ k, k ∈ ks → is_Some (_sources src !! k)) →
  Catalog_wf acc →
  (∃ acc', copy_loop bad g e src ks acc = Ok acc' ∧
     Catalog_wf acc' ∧ cat_ref acc' = cat_ref acc ∧
     (∀ k v cs, k ∈ ks → Catalog_lookup src k v = Some cs → bad k v = false) ∧
     (∀ k v cs, k ∈ ks → Catalog_lookup src k v = Some cs → g k v = true →
        Catalog_lookup acc' k v =
        Some (CatalogSource___init__ (cs_source cs) k (cat_ref acc) v)) ∧
     (∀ k v, k ∉ ks ∨ Catalog_lookup src k v = None ∨ g k v = false →
        Catalog_lookup acc' k v = Catalog_lookup acc k v))
  ∨ (copy_loop bad g e src ks acc = Raise e ∧
     ∃ k v cs, k ∈ ks ∧ Catalog_lookup src k v = Some cs ∧ bad k v = true).
Proof.
  intros Hsrc. revert acc. unfold copy_loop.
  induction ks as [|k0 ks IH]; intros acc Hks Hwf.
  - left. exists acc. simpl. do 3 (split; [done|]). split; [|split].
    + by intros k v cs ?%elem_of_nil.
    + by intros k v cs ?%elem_of_nil.
    + done.
  - destruct (Hks k0 ltac:(by left)) as [versions Hk0].
    assert (Hks' : ∀ k, k ∈ ks → is_Some (_sources src !! k)).
    { intros k Hin. apply Hks. by right. }
    destruct (getitem_found src k0 versions Hsrc Hk0) as (top & Hget & _).
    simpl. rewrite Hget. simpl.
    assert (Hl : ∀ v cs, (v, cs) ∈ map_to_list versions → versions !! v = Some cs ∧ 0 < v).
    { intros v cs Hin%elem_of_map_to_list. split; [done|].
      by destruct (Hsrc k0 versions Hk0) as [_ H]; destruct (H v cs Hin). }
    assert (Hlk : ∀ v, Catalog_lookup src k0 v = versions !! v).
    { intros v. unfold Catalog_lookup. by rewrite Hk0. }
    destruct (copy_step_spec bad g e k0 versions (map_to_list versions) acc Hl Hwf)
      as [(acc1 & -> & Hwf1 & Href1 & Hnobad1 & Hnew1 & Hold1)
         |(-> & v & cs & Hin & Hb)].
    + destruct (IH acc1 Hks' Hwf1)
        as [(acc' & Hrun & Hwf' & Href' & Hnobad & Hnew & Hold)
           |(Hrun & k & v & cs & Hin & Hlook & Hb)].
      * left. exists acc'. split; [done|]. split; [done|].
        split; [congruence|]. split; [|split].
        -- intros k v cs [->|Hin]%elem_of_cons Hlook; [|by eapply Hnobad].
           rewrite Hlk in Hlook. eapply Hnobad1. by apply elem_of_map_to_list.
        -- intros k v cs Hin Hlook Hg. rewrite <-Href1.
           destruct (decide (k ∈ ks)) as [Hkin|Hkin]; [by apply Hnew|].
           apply elem_of_cons in Hin as [->|?]; [|done].
           rewrite Hold by auto. rewrite Href1. apply Hnew1; [|done].
           apply elem_of_map_to_list. by rewrite <-Hlk.
        -- intros k v Hne. rewrite Hold, Hold1; [done| |].
           ++ destruct (decide (k = k0)) as [->|]; [|by left].
              destruct Hne as [Hnin|[Hnone|?]]; [| |by right; right].
              ** exfalso. apply Hnin. by left.
              ** right; left. rewrite Hlk in Hnone.
                 intros [[v' cs] [Hv' Hin%elem_of_map_to_list]]%list_elem_of_fmap.
                 simpl in Hv'. subst v'. congruence.
           ++ destruct Hne as [Hnin|[?|?]]; [|by right; left|by right; right].
              left. intros Hin. apply Hnin. by right.
      * right. split; [done|]. exists k, v, cs. split; [by right | done].
    + right. split; [done|]. exists k0, v, cs. split; [by left|].
      split; [|done]. rewrite Hlk. by apply elem_of_map_to_list.
Qed.

Lemma getitem_inv (C : Catalog) (k : string) cs versions :
  Catalog___getitem__ C k = Ok (Found cs versions) → _sources C !! k = Some versions.
Proof.
  unfold Catalog___getitem__, sources, dict_getitem.
  destruct (Catalog___contains__ C k); simpl; [|done].
  destruct (_sources C !! k) as [vs|]; simpl; [|done].
  destruct (CatalogSource___getitem__ vs (-1)); simpl; [|done].
  by intros [= _ ->].
Qed.

(** A nested loop whose inner body agrees with [copy_step] on the pairs of
    the source catalog is a [copy_loop]. *)
Lemma copy_loop_intro bad g e (src : Catalog) ks (acc : Catalog)
    (ibody : string → Z * CatalogSource → Catalog → Result Catalog) :
  (∀ k v cs a, k ∈ ks → Catalog_lookup src k v = Some cs →
     ibody k (v, cs) a = copy_step bad g e k (v, cs) a) →
  for_each ks (fun k acc =>
    item ← Catalog___getitem__ src k;
    versions ← Item_versions item;
    for_each (map_to_list versions) (ibody k) acc) acc
  = copy_loop bad g e src ks acc.
Proof.
  intros Hbody. unfold copy_loop. apply for_each_ext. intros k a Hk.
  destruct (Catalog___getitem__ src k) as [[cs versions|d]|err] eqn:Hget; simpl; [|done..].
  apply getitem_inv in Hget.
  apply for_each_ext. intros [v cs'] a' Hin%elem_of_map_to_list.
  apply Hbody; [done|]. unfold Catalog_lookup. by rewrite Hget.
Qed.

Lemma elem_of_Catalog_keys (C : Catalog) (k : string) :
  k ∈ Catalog_keys C ↔ is_Some (_sources C !! k).
Proof.
  unfold Catalog_keys, sources. rewrite list_elem_of_fmap. split.
  - intros [[k' x] [-> H%elem_of_map_to_list]]. by exists x.
  - intros [x Hx]. exists (k, x). by rewrite elem_of_map_to_list.
Qed.

Lemma Catalog_lookup_Some_key (C : Catalog) k v cs :
  Catalog_lookup C k v = Some cs → is_Some (_sources C !! k).
Proof. unfold Catalog_lookup. destruct (_sources C !! k); [eauto | done]. Qed.

Lemma Catalog_wf_has_version (C : Catalog) k :
  Catalog_wf C → is_Some (_sources C !! k) → ∃ v, has_pair C k v.
Proof.
  intros Hwf [versions Hk]. destruct (Hwf k versions Hk) as [Hne _].
  apply map_choose in Hne as (v & cs & Hv). exists v, cs.
  unfold Catalog_lookup. by rewrite Hk.
Qed.

Lemma Catalog_wf_lookup (C : Catalog) k v cs :
  Catalog_wf C → Catalog_lookup C k v = Some cs →
  0 < v ∧ identifier cs = k ∧ version cs = v ∧ catalog cs = cat_ref C.
Proof.
  intros Hwf. unfold Catalog_lookup.
  destruct (_sources C !! k) as [versions|] eqn:Hk; simpl; [|done].
  apply (Hwf k versions Hk).
Qed.

(** ** Copy *)

Lemma Catalog___init___run (next : CatalogRef) :
  ∃ C : Catalog, Catalog___init__ next = (Ok C, S next) ∧ cat_ref C = next ∧
    _sources C = ∅ ∧ Catalog_wf C.
Proof.
  eexists. split; [done|]. split; [done|]. split; [done|].
  intros k versions. simpl. by rewrite lookup_empty.
Qed.

Lemma Catalog_copy_run (A : Catalog) (next : CatalogRef) :
  ∃ A', Catalog_copy A next = (Ok A', S next) ∧ cat_ref A' = next ∧
    (∀ k v, Catalog_lookup A' k v =
       (fun cs => CatalogSource___init__ (cs_source cs) (identifier cs) next (version cs))
         <$> Catalog_lookup A k v) ∧
    (Catalog_wf A → Catalog_wf A').
Proof.
  eexists. split; [done|]. split; [done|]. simpl. split.
  - intros k v. unfold Catalog_lookup. simpl. rewrite lookup_fmap.
    destruct (_sources A !! k) as [versions|]; simpl; [|done].
    by rewrite lookup_fmap.
  - intros Hwf k versions'. simpl. rewrite lookup_fmap.
    destruct (_sources A !! k) as [versions|] eqn:Hk; simpl; [|done].
    intros [= <-]. destruct (Hwf k versions Hk) as [Hne Hvs]. split.
    + by intros ?%fmap_empty_inv.
    + intros v cs'. rewrite lookup_fmap.
      destruct (versions !! v) as [cs|] eqn:Hv; simpl; [|done].
      intros [= <-]. simpl. destruct (Hvs v cs Hv) as (? & ? & ? & ?). done.
Qed.

Lemma payload_copy (A A' : Catalog) next k v :
  (∀ k v, Catalog_lookup A' k v =
     (fun cs => CatalogSource___init__ (cs_source cs) (identifier cs) next (version cs))
       <$> Catalog_lookup A k v) →
  payload A' k v = payload A k v ∧ (has_pair A' k v ↔ has_pair A k v).
Proof.
  intros H. unfold payload, has_pair. rewrite H.
  destruct (Catalog_lookup A k v) as [cs|]; simpl.
  - split; [by destruct (cs_source cs) | split; eauto].
  - split; [done|]. split; intros []; done.
Qed.

Lemma M_bind_run {S A B} (m : M S A) (f : A → M S B) (s : S) :
  (m ≫= f) s =
  match m s with
  | (Ok a, s') => f a s'
  | (Raise e, s') => (Raise e, s')
  end.
Proof. done. Qed.

Lemma has_pair_payload (C : Catalog) k v : has_pair C k v ↔ is_Some (payload C k v).
Proof. unfold has_pair, payload. by rewrite fmap_is_Some. Qed.

Lemma not_has_pair_payload (C : Catalog) k v : ¬ has_pair C k v ↔ payload C k v = None.
Proof. by rewrite has_pair_payload, eq_None_not_Some. Qed.

(** ** Union *)

Lemma Catalog_union_run (A B : Catalog) (next : CatalogRef) :
  Catalog_wf A → Catalog_wf B →
  ∃ C, Catalog_union A B next = (Ok C, S (S next)) ∧ cat_ref C = next ∧ Catalog_wf C ∧
    ∀ k v, payload C k v =
           match payload B k v with
           | Some s => Some s
           | None => payload A k v
           end.
Proof.
  intros HA HB. unfold Catalog_union.
  destruct (Catalog_copy_run A next) as (A' & HrunA & HrefA & HlookA & HwfA).
  destruct (Catalog_copy_run B (S next)) as (B' & HrunB & HrefB & HlookB & HwfB).
  rewrite M_bind_run, HrunA, M_bind_run, HrunB. unfold lift.
  rewrite (copy_loop_intro (fun _ _ => false) (fun _ _ => true) AssertionError B' _ _
             (fun k '(ver_id, version) cat => assign_version k ver_id (cs_source version) cat))
    by done.
  destruct (copy_loop_spec (fun _ _ => false) (fun _ _ => true) AssertionError
              B' (Catalog_keys B') A' (HwfB HB)
              (fun k => proj1 (elem_of_Catalog_keys B' k)) (HwfA HA))
    as [(C & -> & HwfC & HrefC & _ & Hnew & Hold)|(_ & k & v & cs & _ & _ & [=])].
  exists C. split; [done|]. split; [congruence|]. split; [done|].
  intros k v.
  destruct (payload_copy A A' next k v HlookA) as [<- _].
  destruct (payload_copy B B' (S next) k v HlookB) as [<- _].
  unfold payload at 1 2.
  destruct (Catalog_lookup B' k v) as [cs|] eqn:Hk; simpl.
  - rewrite (Hnew k v cs); [by rewrite <-(cs_source_init (cs_source cs) k (cat_ref A') v) at 2| |done..].
    apply elem_of_Catalog_keys. by eapply Catalog_lookup_Some_key.
  - rewrite Hold by auto. done.
Qed.

(** C1.  For well-formed catalogs [A] and [B], [union(A, B)] returns, without
    raising, a new catalog object that holds exactly the (identifier, version)
    pairs present in [A] or in [B]; a pair defined in [B] carries [B]'s
    payload (so [B] wins where both define it), and any other pair carries
    [A]'s. *)
Theorem union_spec (A B : Catalog) (next : CatalogRef) :
  Catalog_wf A → Catalog_wf B →
  ∃ C next', Catalog_union A B next = (Ok C, next') ∧
    (next ≤ cat_ref C < next')%nat ∧
    Catalog_wf C ∧
    (∀ k v, has_pair C k v ↔ has_pair A k v ∨ has_pair B k v) ∧
    (∀ k v, has_pair B k v → payload C k v = payload B k v) ∧
    (∀ k v, ¬ has_pair B k v → payload C k v = payload A k v).
Proof.
  intros HA HB.
  destruct (Catalog_union_run A B next HA HB) as (C & Hrun & Href & Hwf & Hpay).
  exists C, (S (S next)). split; [done|]. split; [lia|]. split; [done|].
  split; [|split].
  - intros k v. rewrite !has_pair_payload, Hpay.
    destruct (payload B k v); [|rewrite <-not_eq_None_Some]; naive_solver.
  - intros k v [s Hs]%has_pair_payload. by rewrite Hpay, Hs.
  - intros k v Hs%not_has_pair_payload. by rewrite Hpay, Hs.
Qed.

(** ** Intersection *)

Lemma item_getitem_found (C : Catalog) k v cs :
  Catalog_wf C → Catalog_lookup C k v = Some cs →
  (item ← Catalog___getitem__ C k; Item___getitem__ item v) = Ok cs.
Proof.
  intros Hwf Hlook. destruct (Catalog_wf_lookup C k v cs Hwf Hlook) as [Hpos _].
  unfold Catalog_lookup in Hlook.
  destruct (_sources C !! k) as [versions|] eqn:Hk; simpl in Hlook; [|done].
  destruct (getitem_found C k versions Hwf Hk) as (top & -> & _). simpl.
  rewrite getitem_version by lia. unfold dict_getitem. by rewrite Hlook.
Qed.

Lemma intersection_body (cat1 cat2 : Catalog) k v cs (new_cat : Catalog) :
  Catalog_wf cat1 → Catalog_wf cat2 → Catalog_lookup cat1 k v = Some cs →
  (shared ← (if Catalog___contains__ cat2 k then
               item2 ← Catalog___getitem__ cat2 k;
               versions2 ← Item_versions item2;
               Ok (bool_decide (v ∈ dom versions2))
             else Ok false);
   if shared : bool then
     item1 ← Catalog___getitem__ cat1 k;
     a ← Item___getitem__ item1 v;
     item2 ← Catalog___getitem__ cat2 k;
     b ← Item___getitem__ item2 v;
     if negb (CatalogSource___eq__ a b) then Raise AssertionError
     else assign_version k v (cs_source cs) new_cat
   else Ok new_cat)
  = copy_step (conflicting_pair cat1 cat2) (fun k v => shared_pair cat2 k v) AssertionError
      k (v, cs) new_cat.
Proof.
  intros Hwf1 Hwf2 Hlook1.
  unfold copy_step, conflicting_pair, shared_pair. simpl. rewrite Hlook1.
  pose proof (item_getitem_found cat1 k v cs Hwf1 Hlook1) as Hget1.
  destruct (Catalog_lookup cat2 k v) as [b|] eqn:Hlook2.
  - pose proof (item_getitem_found cat2 k v b Hwf2 Hlook2) as Hget2.
    rewrite bool_decide_eq_true_2 by eauto.
    unfold Catalog_lookup in Hlook2.
    destruct (_sources cat2 !! k) as [versions2|] eqn:Hk2; simpl in Hlook2; [|done].
    assert (Catalog___contains__ cat2 k = true) as ->
      by (apply Catalog___contains___spec; eauto).
    destruct (getitem_found cat2 k versions2 Hwf2 Hk2) as (top2 & Htop2 & _).
    rewrite Htop2 in Hget2 |- *. simpl in Hget2 |- *.
    rewrite bool_decide_eq_true_2 by (apply elem_of_dom; eauto). simpl.
    destruct (Catalog___getitem__ cat1 k) as [item1|] eqn:Hitem1; simpl in Hget1 |- *; [|done].
    rewrite Hget1. simpl. rewrite Hget2. simpl.
    by destruct (CatalogSource___eq__ cs b).
  - rewrite bool_decide_eq_false_2 by (intros []; done).
    unfold Catalog_lookup in Hlook2.
    destruct (_sources cat2 !! k) as [versions2|] eqn:Hk2; simpl in Hlook2.
    + assert (Catalog___contains__ cat2 k = true) as ->
        by (apply Catalog___contains___spec; eauto).
      destruct (getitem_found cat2 k versions2 Hwf2 Hk2) as (top2 & -> & _). simpl.
      rewrite bool_decide_eq_false_2; [done|].
      rewrite elem_of_dom, Hlook2. by intros [].
    + assert (Catalog___contains__ cat2 k = false) as ->
        by (by apply Catalog___contains___false).
      done.
Qed.

Lemma conflicting_pair_copy (A B A' B' : Catalog) n1 n2 k v :
  Catalog_wf A → Catalog_wf B →
  (∀ k v, Catalog_lookup A' k v =
     (fun cs => CatalogSource___init__ (cs_source cs) (identifier cs) n1 (version cs))
       <$> Catalog_lookup A k v) →
  (∀ k v, Catalog_lookup B' k v =
     (fun cs => CatalogSource___init__ (cs_source cs) (identifier cs) n2 (version cs))
       <$> Catalog_lookup B k v) →
  conflicting_pair A' B' k v = true ↔
  ∃ sa sb, payload A k v = Some sa ∧ payload B k v = Some sb ∧ sa ≠ sb.
Proof.
  intros HA HB HlookA HlookB. unfold conflicting_pair, payload.
  rewrite HlookA, HlookB.
  destruct (Catalog_lookup A k v) as [a|] eqn:Ha; simpl; [|naive_solver].
  destruct (Catalog_lookup B k v) as [b|] eqn:Hb; simpl; [|naive_solver].
  destruct (Catalog_wf_lookup A k v a HA Ha) as (_ & Hida & Hva & _).
  destruct (Catalog_wf_lookup B k v b HB Hb) as (_ & Hidb & Hvb & _).
  rewrite negb_true_iff, <-not_true_iff_false, CatalogSource___eq___spec.
  rewrite !cs_source_init. simpl. split.
  - intros Hne. exists (cs_source a), (cs_source b).
    split; [done|]. split; [done|]. intros Heq. apply Hne. by rewrite Hida, Hidb, Hva, Hvb.
  - intros (sa & sb & [= <-] & [= <-] & Hne) (_ & _ & Heq). done.
Qed.

Lemma Catalog_intersection_run (A B : Catalog) (next : CatalogRef) :
  Catalog_wf A → Catalog_wf B →
  (∃ C, Catalog_intersection A B next = (Ok C, S (S (S next))) ∧
     cat_ref C = S (S next) ∧ Catalog_wf C ∧
     (∀ k v sa sb, payload A k v = Some sa → payload B k v = Some sb → sa = sb) ∧
     (∀ k v, payload C k v =
             match payload B k v with
             | Some _ => payload A k v
             | None => None
             end))
  ∨ (Catalog_intersection A B next = (Raise AssertionError, S (S (S next))) ∧
     ∃ k v sa sb, payload A k v = Some sa ∧ payload B k v = Some sb ∧ sa ≠ sb).
Proof.
  intros HA HB. unfold Catalog_intersection.
  destruct (Catalog_copy_run A next) as (A' & HrunA & HrefA & HlookA & HwfA).
  destruct (Catalog_copy_run B (S next)) as (B' & HrunB & HrefB & HlookB & HwfB).
  destruct (Catalog___init___run (S (S next))) as (N & HrunN & HrefN & HsrcN & HwfN).
  rewrite M_bind_run, HrunA, M_bind_run, HrunB, M_bind_run, HrunN. unfold lift.
  specialize (HwfA HA). specialize (HwfB HB).
  erewrite (copy_loop_intro (conflicting_pair A' B') (fun k v => shared_pair B' k v)
              AssertionError A'); last first.
  { intros k v cs a _ Hlook. by apply intersection_body. }
  assert (HlookN : ∀ k v, Catalog_lookup N k v = None).
  { intros k v. unfold Catalog_lookup. by rewrite HsrcN, lookup_empty. }
  destruct (copy_loop_spec (conflicting_pair A' B') (fun k v => shared_pair B' k v)
              AssertionError A' (Catalog_keys A') N HwfA
              (fun k => proj1 (elem_of_Catalog_keys A' k)) HwfN)
    as [(C & -> & HwfC & HrefC & Hnobad & Hnew & Hold)|(-> & k & v & cs & _ & _ & Hbad)].
  - left. exists C. split; [done|]. split; [congruence|]. split; [done|]. split.
    + intros k v sa sb Hsa Hsb.
      destruct (decide (sa = sb)) as [|Hne]; [done|]. exfalso.
      assert (Hc : conflicting_pair A' B' k v = true).
      { apply (conflicting_pair_copy A B A' B' next (S next) k v HA HB HlookA HlookB).
        by exists sa, sb. }
      destruct (payload_copy A A' next k v HlookA) as [Hpay _].
      rewrite <-Hpay in Hsa. unfold payload in Hsa.
      destruct (Catalog_lookup A' k v) as [cs|] eqn:Hcs; [|done].
      rewrite (Hnobad k v cs) in Hc; [done| |done].
      apply elem_of_Catalog_keys. by eapply Catalog_lookup_Some_key.
    + intros k v.
      destruct (payload_copy A A' next k v HlookA) as [<- _].
      destruct (payload_copy B B' (S next) k v HlookB) as [<- HpB].
      unfold payload.
      destruct (Catalog_lookup B' k v) as [b|] eqn:Hb; simpl.
      * destruct (Catalog_lookup A' k v) as [a|] eqn:Ha; simpl.
        -- rewrite (Hnew k v a); [simpl; by destruct (cs_source a)| |done|].
           ++ apply elem_of_Catalog_keys. by eapply Catalog_lookup_Some_key.
           ++ unfold shared_pair. rewrite Hb. by apply bool_decide_eq_true_2.
        -- rewrite Hold by auto. by rewrite HlookN.
      * rewrite Hold; [by rewrite HlookN|]. right; right.
        unfold shared_pair. rewrite Hb. apply bool_decide_eq_false_2. by intros [].
  - right. split; [done|]. exists k, v.
    by apply (conflicting_pair_copy A B A' B' next (S next) k v HA HB HlookA HlookB).
Qed.

(** C2.  For well-formed catalogs [A] and [B]: when every shared
    (identifier, version) pair carries the same payload in both,
    [intersection(A, B)] raises nothing and returns a new catalog holding
    exactly the pairs present in both, with that payload; when some shared
    pair carries different payloads, it raises AssertionError. *)
Theorem intersection_spec (A B : Catalog) (next : CatalogRef) :
  Catalog_wf A → Catalog_wf B →
  ((∀ k v sa sb, payload A k v = Some sa → payload B k v = Some sb → sa = sb) →
     ∃ C next', Catalog_intersection A B next = (Ok C, next') ∧
       (next ≤ cat_ref C < next')%nat ∧
       Catalog_wf C ∧
       (∀ k v, has_pair C k v ↔ has_pair A k v ∧ has_pair B k v) ∧
       (∀ k v, has_pair C k v → payload C k v = payload A k v)) ∧
  ((∃ k v sa sb, payload A k v = Some sa ∧ payload B k v = Some sb ∧ sa ≠ sb) →
     ∃ next', Catalog_intersection A B next = (Raise AssertionError, next')).
Proof.
  intros HA HB.
  destruct (Catalog_intersection_run A B next HA HB)
    as [(C & Hrun & Href & Hwf & Hagree & Hpay)|(Hrun & k & v & sa & sb & Hsa & Hsb & Hne)].
  - split.
    + intros _. exists C, (S (S (S next))). split; [done|]. split; [lia|]. split; [done|].
      split.
      * intros k v. rewrite !has_pair_payload, Hpay.
        destruct (payload B k v); [|rewrite <-!not_eq_None_Some]; naive_solver.
      * intros k v. rewrite has_pair_payload, Hpay.
        destruct (payload B k v); [done | by intros []].
    + intros (k & v & sa & sb & Hsa & Hsb & Hne). destruct Hne. by eapply Hagree.
  - split.
    + intros Hagree. destruct Hne. by eapply Hagree.
    + intros _. by exists (S (S (S next))).
Qed.

(** ** Length *)

Lemma Catalog___len___zero (C : Catalog) :
  Catalog_wf C → Catalog___len__ C = 0%nat ↔ ∀ k v, ¬ has_pair C k v.
Proof.
  intros Hwf. unfold Catalog___len__, Catalog_keys, sources. rewrite length_fmap.
  destruct (map_to_list (_sources C)) as [|[k versions] l] eqn:Hl; simpl.
  - split; [|done]. intros _ k v [cs Hcs].
    apply map_to_list_empty_iff in Hl. unfold Catalog_lookup in Hcs.
    by rewrite Hl, lookup_empty in Hcs.
  - split; [done|]. intros Hnone. exfalso.
    assert (Hk : _sources C !! k = Some versions).
    { apply elem_of_map_to_list. rewrite Hl. by left. }
    destruct (Catalog_wf_has_version C k Hwf) as [v Hv]; [eauto|]. by eapply Hnone.
Qed.

Lemma Catalog___len___nonzero (C : Catalog) :
  Catalog_wf C → Catalog___len__ C ≠ 0%nat → ∃ k v, has_pair C k v.
Proof.
  intros Hwf. unfold Catalog___len__, Catalog_keys, sources. rewrite length_fmap.
  destruct (map_to_list (_sources C)) as [|[k versions] l] eqn:Hl; simpl; [done|].
  intros _. exists k. apply Catalog_wf_has_version; [done|]. exists versions.
  apply elem_of_map_to_list. rewrite Hl. by left.
Qed.

(** ** Difference *)

Lemma difference_body (a_cat_2 : Catalog) k v cs (new_cat : Catalog) :
  Catalog_wf a_cat_2 →
  (absent ← (if negb (Catalog___contains__ a_cat_2 k) then Ok true
             else item2 ← Catalog___getitem__ a_cat_2 k;
                  Ok (negb (Item___contains__ item2 v)));
   if absent : bool then assign_version k v (cs_source cs) new_cat
   else Ok new_cat)
  = copy_step (fun _ _ => false) (fun k v => negb (shared_pair a_cat_2 k v)) AssertionError
      k (v, cs) new_cat.
Proof.
  intros Hwf. unfold copy_step, shared_pair, Catalog_lookup. simpl.
  destruct (_sources a_cat_2 !! k) as [versions2|] eqn:Hk2; simpl.
  - assert (Catalog___contains__ a_cat_2 k = true) as ->
      by (apply Catalog___contains___spec; eauto).
    destruct (getitem_found a_cat_2 k versions2 Hwf Hk2) as (top2 & -> & _). simpl.
    unfold CatalogSource___contains__.
    destruct (versions2 !! v) as [b|] eqn:Hv.
    + rewrite bool_decide_eq_true_2 by (apply elem_of_dom; eauto).
      by rewrite bool_decide_eq_true_2 by eauto.
    + rewrite bool_decide_eq_false_2 by (rewrite elem_of_dom, Hv; by intros []).
      by rewrite bool_decide_eq_false_2 by (by intros []).
  - assert (Catalog___contains__ a_cat_2 k = false) as ->
      by (by apply Catalog___contains___false).
    done.
Qed.

Lemma Catalog_difference_run (A B : Catalog) (next : CatalogRef) :
  Catalog_wf A → Catalog_wf B →
  ∃ C, Catalog_difference A B next = (Ok C, S (S (S next))) ∧
    cat_ref C = S (S next) ∧ Catalog_wf C ∧
    ∀ k v, payload C k v =
           match payload A k v, payload B k v with
           | Some s, None => Some s
           | None, Some s => Some s
           | _, _ => None
           end.
Proof.
  intros HA HB. unfold Catalog_difference.
  destruct (Catalog_copy_run A next) as (A' & HrunA & HrefA & HlookA & HwfA).
  destruct (Catalog_copy_run B (S next)) as (B' & HrunB & HrefB & HlookB & HwfB).
  destruct (Catalog___init___run (S (S next))) as (N & HrunN & HrefN & HsrcN & HwfN).
  rewrite M_bind_run, HrunA, M_bind_run, HrunB, M_bind_run, HrunN. unfold lift.
  specialize (HwfA HA). specialize (HwfB HB).
  assert (HlookN : ∀ k v, Catalog_lookup N k v = None).
  { intros k v. unfold Catalog_lookup. by rewrite HsrcN, lookup_empty. }
  simpl.
  erewrite (copy_loop_intro (fun _ _ => false) (fun k v => negb (shared_pair B' k v))
              AssertionError A'); last first.
  { intros k v cs a _ _. by apply difference_body. }
  destruct (copy_loop_spec (fun _ _ => false) (fun k v => negb (shared_pair B' k v))
              AssertionError A' (Catalog_keys A') N HwfA
              (fun k => proj1 (elem_of_Catalog_keys A' k)) HwfN)
    as [(C1 & -> & HwfC1 & HrefC1 & _ & Hnew1 & Hold1)|(_ & k & v & cs & _ & _ & [=])].
  erewrite (copy_loop_intro (fun _ _ => false) (fun k v => negb (shared_pair A' k v))
              AssertionError B'); last first.
  { intros k v cs a _ _. by apply difference_body. }
  destruct (copy_loop_spec (fun _ _ => false) (fun k v => negb (shared_pair A' k v))
              AssertionError B' (Catalog_keys B') C1 HwfB
              (fun k => proj1 (elem_of_Catalog_keys B' k)) HwfC1)
    as [(C & -> & HwfC & HrefC & _ & Hnew & Hold)|(_ & k & v & cs & _ & _ & [=])].
  exists C. split; [done|]. split; [congruence|]. split; [done|].
  intros k v.
  destruct (payload_copy A A' next k v HlookA) as [<- _].
  destruct (payload_copy B B' (S next) k v HlookB) as [<- _].
  unfold payload.
  assert (HkA : ∀ a, Catalog_lookup A' k v = Some a → k ∈ Catalog_keys A').
  { intros a Ha. apply elem_of_Catalog_keys. by eapply Catalog_lookup_Some_key. }
  assert (HkB : ∀ b, Catalog_lookup B' k v = Some b → k ∈ Catalog_keys B').
  { intros b Hb. apply elem_of_Catalog_keys. by eapply Catalog_lookup_Some_key. }
  destruct (Catalog_lookup A' k v) as [a|] eqn:Ha;
    destruct (Catalog_lookup B' k v) as [b|] eqn:Hb; simpl.
  - rewrite Hold, Hold1, HlookN; [done| |].
    + right; right. unfold shared_pair. rewrite Hb. by rewrite bool_decide_eq_true_2 by eauto.
    + right; right. unfold shared_pair. rewrite Ha. by rewrite bool_decide_eq_true_2 by eauto.
  - rewrite Hold by auto. rewrite (Hnew1 k v a); [simpl; by destruct (cs_source a)|eauto|done|].
    unfold shared_pair. rewrite Hb. by rewrite bool_decide_eq_false_2 by (by intros []).
  - rewrite (Hnew k v b); [simpl; by destruct (cs_source b)|eauto|done|].
    unfold shared_pair. rewrite Ha. by rewrite bool_decide_eq_false_2 by (by intros []).
  - rewrite Hold, Hold1, HlookN by auto. done.
Qed.

(** C4.  For well-formed catalogs [A] and [B], [difference(A, B)] raises
    nothing and returns a new catalog holding exactly the
    (identifier, version) pairs present in exactly one of [A] and [B], each
    with the payload it has there; [difference(A, A)] holds no pair and has
    length 0. *)
Theorem difference_spec (A B : Catalog) (next : CatalogRef) :
  Catalog_wf A → Catalog_wf B →
  (∃ C next', Catalog_difference A B next = (Ok C, next') ∧
     (next ≤ cat_ref C < next')%nat ∧
     Catalog_wf C ∧
     (∀ k v, has_pair C k v ↔
             (has_pair A k v ∧ ¬ has_pair B k v) ∨ (has_pair B k v ∧ ¬ has_pair A k v)) ∧
     (∀ k v, has_pair A k v → ¬ has_pair B k v → payload C k v = payload A k v) ∧
     (∀ k v, has_pair B k v → ¬ has_pair A k v → payload C k v = payload B k v)) ∧
  (∃ E next', Catalog_difference A A next = (Ok E, next') ∧
     (∀ k v, ¬ has_pair E k v) ∧ Catalog___len__ E = 0%nat).
Proof.
  intros HA HB. split.
  - destruct (Catalog_difference_run A B next HA HB) as (C & Hrun & Href & Hwf & Hpay).
    exists C, (S (S (S next))). split; [done|]. split; [lia|]. split; [done|].
    split; [|split].
    + intros k v. rewrite !has_pair_payload, Hpay.
      destruct (payload A k v), (payload B k v); rewrite <-?not_eq_None_Some; naive_solver.
    + intros k v [s Hs]%has_pair_payload Hn%not_has_pair_payload. by rewrite Hpay, Hs, Hn.
    + intros k v [s Hs]%has_pair_payload Hn%not_has_pair_payload. by rewrite Hpay, Hs, Hn.
  - destruct (Catalog_difference_run A A next HA HA) as (E & Hrun & Href & Hwf & Hpay).
    exists E, (S (S (S next))). split; [done|].
    assert (Hnone : ∀ k v, ¬ has_pair E k v).
    { intros k v. rewrite not_has_pair_payload, Hpay. by destruct (payload A k v). }
    split; [done|]. by apply Catalog___len___zero.
Qed.

(** ** Equality of catalogs *)

Lemma for_return_None {A R} (xs : list A) (body : A → Result (option R)) :
  (∀ x, x ∈ xs → body x = Ok None) → for_return xs body = Ok None.
Proof.
  induction xs as [|x xs IH]; intros Hbody; simpl; [done|].
  rewrite Hbody by left. apply IH. intros y Hy. apply Hbody. by right.
Qed.

Lemma Catalog___eq___same (C U : Catalog) (next : CatalogRef) :
  Catalog_wf C → Catalog_wf U →
  (∀ k v, payload C k v = payload U k v) →
  Catalog___eq__ C U next = (Ok true, S (S (S next))).
Proof.
  intros HC HU Hsame. unfold Catalog___eq__. rewrite M_bind_run.
  destruct (Catalog_difference_run C U next HC HU) as (D & -> & _ & HwfD & Hpay).
  assert (Hlen : Catalog___len__ D = 0%nat).
  { apply Catalog___len___zero; [done|]. intros k v.
    rewrite not_has_pair_payload, Hpay, Hsame. by destruct (payload U k v). }
  rewrite bool_decide_eq_false_2 by lia. unfold lift.
  rewrite for_return_None; [done|].
  intros k [versions Hk]%elem_of_Catalog_keys.
  destruct (getitem_found C k versions HC Hk) as (top & Hget & _).
  rewrite Hget. simpl. apply for_return_None.
  intros v [[v' a] [-> Hin%elem_of_map_to_list]]%list_elem_of_fmap. simpl.
  assert (Ha : Catalog_lookup C k v' = Some a) by (unfold Catalog_lookup; by rewrite Hk).
  pose proof (item_getitem_found C k v' a HC Ha) as HgetC.
  rewrite Hget in HgetC. simpl in HgetC. rewrite HgetC. simpl.
  pose proof (Hsame k v') as Hs. unfold payload in Hs. rewrite Ha in Hs.
  destruct (Catalog_lookup U k v') as [b|] eqn:Hb; simpl in Hs; [|done].
  pose proof (item_getitem_found U k v' b HU Hb) as HgetU.
  destruct (Catalog___getitem__ U k) as [itemU|]; simpl in HgetU |- *; [|done].
  rewrite HgetU. simpl.
  destruct (Catalog_wf_lookup C k v' a HC Ha) as (_ & Hida & Hva & _).
  destruct (Catalog_wf_lookup U k v' b HU Hb) as (_ & Hidb & Hvb & _).
  rewrite (proj2 (CatalogSource___eq___spec a b)); [done|].
  split; [congruence|]. split; [congruence|]. congruence.
Qed.

(** X8.  For a well-formed catalog [A], [intersection(A, A)] raises nothing
    and its result compares [==] to [A]. *)
Lemma intersection_self (A : Catalog) (next eq_next : CatalogRef) :
  Catalog_wf A →
  ∃ C next' eq_next', Catalog_intersection A A next = (Ok C, next') ∧
    Catalog___eq__ C A eq_next = (Ok true, eq_next').
Proof.
  intros HA.
  destruct (Catalog_intersection_run A A next HA HA)
    as [(C & Hrun & _ & Hwf & _ & Hpay)|(_ & k & v & sa & sb & Hsa & Hsb & Hne)];
    [|congruence].
  exists C, (S (S (S next))), (S (S (S eq_next))). split; [done|].
  apply Catalog___eq___same; [done..|].
  intros k v. rewrite Hpay. by destruct (payload A k v).
Qed.

(** ** Join *)

Lemma Catalog_join_run (A B : Catalog) (next : CatalogRef) :
  Catalog_wf A → Catalog_wf B →
  ((∀ k v, ¬ (has_pair A k v ∧ has_pair B k v)) ∧
     Catalog_join A B next = Catalog_union A B (S (S (S next))))
  ∨ ((∃ k v, has_pair A k v ∧ has_pair B k v) ∧
     Catalog_join A B next = (Raise AssertionError, S (S (S next)))).
Proof.
  intros HA HB. unfold Catalog_join. rewrite M_bind_run.
  destruct (Catalog_intersection_run A B next HA HB)
    as [(C & -> & Href & Hwf & Hagree & Hpay)|(-> & k & v & sa & sb & Hsa & Hsb & Hne)].
  - destruct (decide (Catalog___len__ C = 0%nat)) as [Hlen|Hlen].
    + left. rewrite bool_decide_eq_true_2 by done. simpl. split; [|done].
      intros k v [[sa Hsa]%has_pair_payload [sb Hsb]%has_pair_payload].
      apply (proj1 (Catalog___len___zero C Hwf) Hlen k v).
      apply has_pair_payload. rewrite Hpay, Hsb, Hsa. eauto.
    + right. rewrite bool_decide_eq_false_2 by done. simpl. split; [|done].
      destruct (Catalog___len___nonzero C Hwf Hlen) as (k & v & Hkv).
      exists k, v. apply has_pair_payload in Hkv. rewrite Hpay in Hkv.
      rewrite !has_pair_payload. destruct (payload B k v); [eauto | by destruct Hkv].
  - right. split; [exists k, v; rewrite !has_pair_payload; eauto | done].
Qed.

(** C3.  For well-formed catalogs [A] and [B]: when they share no
    (identifier, version) pair, [join(A, B)] raises nothing and returns what
    the call [union(A, B)] it ends with returns, a catalog with the pairs and
    payloads of [union(A, B)] run at any other time and [==] to it; when they
    share a pair, it raises AssertionError and returns nothing. *)
Theorem join_spec (A B : Catalog) (next : CatalogRef) :
  Catalog_wf A → Catalog_wf B →
  ((∀ k v, ¬ (has_pair A k v ∧ has_pair B k v)) →
     ∃ C next', Catalog_join A B next = (Ok C, next') ∧
       (next ≤ cat_ref C < next')%nat ∧
       Catalog_wf C ∧
       Catalog_join A B next = Catalog_union A B (S (S (S next))) ∧
       ∀ other_next eq_next, ∃ U other_next' eq_next',
         Catalog_union A B other_next = (Ok U, other_next') ∧
         (∀ k v, has_pair C k v ↔ has_pair U k v) ∧
         (∀ k v, payload C k v = payload U k v) ∧
         Catalog___eq__ C U eq_next = (Ok true, eq_next')) ∧
  ((∃ k v, has_pair A k v ∧ has_pair B k v) →
     ∃ next', Catalog_join A B next = (Raise AssertionError, next')).
Proof.
  intros HA HB.
  destruct (Catalog_join_run A B next HA HB) as [[Hdisj Hrun]|[(k & v & Hshared) Hrun]].
  - split; [|intros (k & v & Hshared); by destruct (Hdisj k v)].
    intros _.
    destruct (Catalog_union_run A B (S (S (S next))) HA HB) as (C & HC & Href & Hwf & Hpay).
    exists C, (S (S (S (S (S next))))). split; [by rewrite Hrun|].
    split; [lia|]. split; [done|]. split; [done|].
    intros other_next eq_next.
    destruct (Catalog_union_run A B other_next HA HB) as (U & HU & _ & HwfU & HpayU).
    exists U, (S (S other_next)), (S (S (S eq_next))). split; [done|].
    assert (Hsame : ∀ k v, payload C k v = payload U k v).
    { intros k' v'. by rewrite Hpay, HpayU. }
    split; [|split; [done|by apply Catalog___eq___same]].
    intros k' v'. by rewrite !has_pair_payload, Hsame.
  - split; [intros Hdisj; by destruct (Hdisj k v)|].
    intros _. by exists (S (S (S next))).
Qed.

(** ** Lookup by identifier *)

Lemma Catalog___iter___loop (C : Catalog) (l : list (string * gmap Z CatalogSource)) acc :
  Catalog_wf C →
  (∀ k versions, (k, versions) ∈ l → _sources C !! k = Some versions) →
  ∃ items,
    for_each l
      (fun '(k, v) acc => cs ← CatalogSource___getitem__ v (-1); Ok (acc ++ [(k, cs)]))
      acc = Ok (acc ++ items) ∧
    items.*1 = l.*1 ∧ ∀ k cs, (k, cs) ∈ items → is_latest C k cs.
Proof.
  intros Hwf. revert acc. induction l as [|[k versions] l IH]; intros acc Hl.
  - exists []. simpl. rewrite app_nil_r. split; [done|]. split; [done|].
    by intros k cs ?%elem_of_nil.
  - assert (Hk : _sources C !! k = Some versions) by (apply Hl; by left).
    destruct (Hwf k versions Hk) as [Hne Hvs].
    destruct (getitem_latest versions Hne) as (cs & m & Hget & Hm & Hmax).
    destruct (Hvs m cs Hm) as (_ & _ & Hver & _).
    destruct (IH (acc ++ [(k, cs)])) as (items & Hrun & Hkeys & Hlatest).
    { intros k' vs' Hin. apply Hl. by right. }
    exists ((k, cs) :: items). simpl. rewrite Hget. simpl. rewrite Hrun.
    split; [by rewrite <-app_assoc|]. split; [simpl; by f_equal|].
    intros k' cs' [[= -> ->]|Hin]%elem_of_cons; [|by apply Hlatest].
    exists versions. by rewrite Hver.
Qed.

(** C5.  In a well-formed catalog, subscripting by an identifier that is
    present returns the CatalogSource stored under the numerically greatest
    version key of that identifier, and iterating yields, for every
    identifier, that same CatalogSource; every stored version is positive, so
    -1 is not a stored key, and assigning at version -1 raises AssertionError
    and leaves the catalog as it was. *)
Theorem getitem_latest_spec (C : Catalog) (k : string) :
  Catalog_wf C → Catalog___contains__ C k = true →
  (∃ cs versions, Catalog___getitem__ C k = Ok (Found cs versions) ∧ is_latest C k cs) ∧
  (∃ items, Catalog___iter__ C = Ok items ∧ items.*1 = Catalog_keys C ∧
     ∀ k' cs', (k', cs') ∈ items → is_latest C k' cs') ∧
  (∀ k' v, has_pair C k' v → 0 < v) ∧
  (∀ k', Catalog_lookup C k' (-1) = None) ∧
  (∀ item value, Item___setitem__ item (-1) value C = (Raise AssertionError, C)).
Proof.
  intros Hwf [versions Hk]%Catalog___contains___spec.
  assert (Hpos : ∀ k' v, has_pair C k' v → 0 < v).
  { intros k' v [cs Hcs]. by destruct (Catalog_wf_lookup C k' v cs Hwf Hcs). }
  split; [|split; [|split; [|split]]].
  - destruct (getitem_found C k versions Hwf Hk) as (cs & Hget & Hver & Hmax & _).
    exists cs, versions. split; [done|]. by exists versions.
  - destruct (Catalog___iter___loop C (map_to_list (_sources C)) [] Hwf)
      as (items & Hrun & Hkeys & Hlatest).
    { intros k' vs'. by rewrite elem_of_map_to_list. }
    exists items. done.
  - done.
  - intros k'. destruct (Catalog_lookup C k' (-1)) as [cs|] eqn:Hcs; [|done].
    assert (0 < -1) by (apply (Hpos k'); by exists cs). lia.
  - by intros [cs vs|d] value.
Qed.

(** C6.  Subscripting a catalog by an identifier that is not present raises
    nothing: it returns a DummyCatalogSource carrying that identifier and the
    catalog, and [in] on that placeholder is false for every index. *)
Theorem getitem_missing_spec (C : Catalog) (k : string) :
  Catalog___contains__ C k = false →
  ∃ dummy, Catalog___getitem__ C k = Ok (NotFound dummy) ∧
    _identifier dummy = k ∧ _catalog dummy = cat_ref C ∧
    ∀ index, DummyCatalogSource___contains__ dummy index = false ∧
             Item___contains__ (NotFound dummy : Item) index = false.
Proof.
  intros Hk%Catalog___contains___false.
  eexists. split; [by apply getitem_notfound|]. done.
Qed.

(** C7.  For an identifier [k] not present in catalog [C], the placeholder
    that [C[k]] returns, assigned a Source [s] at version [v]: when [v > 0]
    the catalog gets one entry for [k], holding the single version [v] with a
    CatalogSource that wraps [s], every other identifier being left as it
    was; when [v <= 0] the assignment raises AssertionError and the catalog
    is unchanged. *)
Theorem placeholder_assign_spec (C : Catalog) (k : string) (s : Source) (v : Z) :
  Catalog___contains__ C k = false →
  ∃ dummy, Catalog___getitem__ C k = Ok (NotFound dummy) ∧
    (0 < v →
       ∃ C', DummyCatalogSource___setitem__ dummy v s C = (Ok (), C') ∧
         cat_ref C' = cat_ref C ∧
         _sources C' !! k = Some {[ v := CatalogSource___init__ s k (cat_ref C) v ]} ∧
         (∀ v', has_pair C' k v' ↔ v' = v) ∧
         payload C' k v = Some s ∧
         (∀ k', k' ≠ k → _sources C' !! k' = _sources C !! k')) ∧
    (v ≤ 0 → DummyCatalogSource___setitem__ dummy v s C = (Raise AssertionError, C)).
Proof.
  intros Hk%Catalog___contains___false.
  eexists. split; [by apply getitem_notfound|]. split.
  - intros Hv. unfold DummyCatalogSource___setitem__. simpl.
    rewrite bool_decide_eq_true_2 by lia. simpl.
    eexists. split; [done|]. simpl. split; [done|].
    split; [by rewrite lookup_insert_eq|]. split; [|split].
    + intros v'. unfold has_pair, Catalog_lookup, stored. simpl.
      rewrite lookup_insert_eq. simpl. rewrite lookup_singleton_is_Some. naive_solver.
    + unfold payload, Catalog_lookup, stored. simpl. rewrite lookup_insert_eq. simpl.
      rewrite lookup_singleton_eq. simpl. by destruct s.
    + intros k' Hne. by rewrite lookup_insert_ne.
  - intros Hv. unfold DummyCatalogSource___setitem__.
    by rewrite bool_decide_eq_false_2 by lia.
Qed.

(** C10.  [C[k] = s] replaces whatever is stored under [k]: afterwards [k]
    holds the single version 1, a CatalogSource wrapping [s]; no other
    version remains under [k], and other identifiers are left as they were. *)
Theorem setitem_replaces_spec (C : Catalog) (k : string) (s : Source) :
  ∃ C', Catalog___setitem__ k s C = (Ok (), C') ∧
    cat_ref C' = cat_ref C ∧
    _sources C' !! k = Some {[ 1 := CatalogSource___init__ s k (cat_ref C) 1 ]} ∧
    (∀ v, has_pair C' k v ↔ v = 1) ∧
    payload C' k 1 = Some s ∧
    (∀ v cs, Catalog_lookup C k v = Some cs → v ≠ 1 → Catalog_lookup C' k v = None) ∧
    Catalog___getitem__ C' k =
      Ok (Found (CatalogSource___init__ s k (cat_ref C) 1)
                {[ 1 := CatalogSource___init__ s k (cat_ref C) 1 ]}) ∧
    (∀ k', k' ≠ k → _sources C' !! k' = _sources C !! k').
Proof.
  eexists. split; [done|]. simpl. split; [done|].
  split; [by rewrite lookup_insert_eq|].
  assert (Hhas : ∀ v,
    has_pair {| cat_ref := cat_ref C;
                _sources := <[k:=stored (CatalogSource___init__ s k (cat_ref C) 1)]>
                              (_sources C) |} k v ↔ v = 1).
  { intros v. unfold has_pair, Catalog_lookup, stored. simpl.
    rewrite lookup_insert_eq. simpl. rewrite lookup_singleton_is_Some. naive_solver. }
  split; [done|]. split; [|split; [|split]].
  - unfold payload, Catalog_lookup, stored. simpl. rewrite lookup_insert_eq. simpl.
    rewrite lookup_singleton_eq. simpl. by destruct s.
  - intros v cs _ Hne. apply eq_None_not_Some. intros Hsome. by apply Hne, Hhas.
  - unfold Catalog___getitem__.
    rewrite (proj2 (Catalog___contains___spec _ k)) by (simpl; rewrite lookup_insert_eq; eauto).
    simpl. unfold sources, dict_getitem. simpl. rewrite lookup_insert_eq. simpl.
    unfold CatalogSource___getitem__, stored. simpl.
    unfold max_key. rewrite map_to_list_singleton. simpl.
    unfold dict_getitem. by rewrite lookup_singleton_eq.
  - intros k' Hne. by rewrite lookup_insert_ne.
Qed.

(** ** Slice *)

Lemma slice_loop_copy_loop (src : Catalog) ks (acc : Catalog) :
  Catalog_wf src →
  for_each ks (fun k cat =>
    item ← Catalog___getitem__ src k;
    versions ← Item_versions item;
    for_each (map_to_list versions).*1 (fun v cat =>
      item ← Catalog___getitem__ src k;
      value ← Item___getitem__ item v;
      assign_version k v (cs_source value) cat) cat) acc
  = copy_loop (fun _ _ => false) (fun _ _ => true) AttributeError src ks acc.
Proof.
  intros Hwf. unfold copy_loop. apply for_each_ext. intros k a _.
  destruct (Catalog___getitem__ src k) as [[top versions|d]|err] eqn:Hget; simpl; [|done..].
  pose proof (getitem_inv src k top versions Hget) as Hk.
  rewrite for_each_fmap. apply for_each_ext.
  intros [v cs] a' Hin%elem_of_map_to_list. simpl.
  destruct (Hwf k versions Hk) as [_ Hvs]. destruct (Hvs v cs Hin) as [Hpos _].
  rewrite getitem_version by lia. unfold dict_getitem. by rewrite Hin.
Qed.

Lemma copy_loop_absent g e (src : Catalog) ks (acc : Catalog) :
  Catalog_wf src → Catalog_wf acc →
  (∃ k, k ∈ ks ∧ _sources src !! k = None) →
  copy_loop (fun _ _ => false) g e src ks acc = Raise AttributeError.
Proof.
  intros Hsrc. revert acc. induction ks as [|k0 ks IH]; intros acc Hacc (k & Hin & Hk).
  - by apply elem_of_nil in Hin.
  - destruct (_sources src !! k0) as [versions|] eqn:Hk0.
    + destruct (copy_loop_spec (fun _ _ => false) g e src [k0] acc Hsrc)
        as [(acc1 & Hrun & Hwf1 & _)|(_ & ? & ? & ? & _ & _ & [=])]; [|done|].
      { intros k' ->%list_elem_of_singleton. eauto. }
      change (k0 :: ks) with ([k0] ++ ks). unfold copy_loop in *.
      rewrite for_each_app, Hrun. simpl. apply IH; [done|].
      exists k. split; [|done].
      apply elem_of_cons in Hin as [->|?]; [congruence | done].
    + unfold copy_loop. simpl. by rewrite (getitem_notfound src k0 Hk0).
Qed.

(** C8.  For a well-formed catalog [A] and a list of identifiers [ks]: when
    every identifier of [ks] is present in [A], [slice(A, ks)] raises nothing
    and returns a new catalog whose identifiers are exactly those of [ks],
    each with exactly the versions and payloads it has in [A]; when some
    identifier of [ks] is absent from [A], it raises (AttributeError, from
    [.versions] on the placeholder) and returns nothing. *)
Theorem slice_spec (A : Catalog) (ks : list string) (next : CatalogRef) :
  Catalog_wf A →
  ((∀ k, k ∈ ks → Catalog___contains__ A k = true) →
     ∃ C next', Catalog_slice A ks next = (Ok C, next') ∧
       (next ≤ cat_ref C < next')%nat ∧
       Catalog_wf C ∧
       (∀ k, Catalog___contains__ C k = true ↔ k ∈ ks) ∧
       (∀ k v, k ∈ ks → (has_pair C k v ↔ has_pair A k v) ∧ payload C k v = payload A k v) ∧
       (∀ k v, k ∉ ks → ¬ has_pair C k v)) ∧
  ((∃ k, k ∈ ks ∧ Catalog___contains__ A k = false) →
     ∃ next', Catalog_slice A ks next = (Raise AttributeError, next')).
Proof.
  intros HA. unfold Catalog_slice.
  destruct (Catalog_copy_run A next) as (A' & HrunA & HrefA & HlookA & HwfA).
  destruct (Catalog___init___run (S next)) as (N & HrunN & HrefN & HsrcN & HwfN).
  rewrite M_bind_run, HrunA, M_bind_run, HrunN. unfold lift.
  specialize (HwfA HA). rewrite slice_loop_copy_loop by done.
  assert (HlookN : ∀ k v, Catalog_lookup N k v = None).
  { intros k v. unfold Catalog_lookup. by rewrite HsrcN, lookup_empty. }
  assert (Hkeys : ∀ k, is_Some (_sources A' !! k) ↔ is_Some (_sources A !! k)).
  { intros k. split.
    - intros Hk. destruct (Catalog_wf_has_version A' k HwfA Hk) as [v Hv].
      apply (payload_copy A A' next k v HlookA) in Hv as [cs Hcs].
      by eapply Catalog_lookup_Some_key.
    - intros Hk. destruct (Catalog_wf_has_version A k HA Hk) as [v Hv].
      apply (payload_copy A A' next k v HlookA) in Hv as [cs Hcs].
      by eapply Catalog_lookup_Some_key. }
  split.
  - intros Hks.
    destruct (copy_loop_spec (fun _ _ => false) (fun _ _ => true) AttributeError A' ks N HwfA)
      as [(C & -> & HwfC & HrefC & _ & Hnew & Hold)|(_ & ? & ? & ? & _ & _ & [=])]; [|done|].
    { intros k Hk. by apply Hkeys, Catalog___contains___spec, Hks. }
    assert (Hpay : ∀ k v, k ∈ ks → payload C k v = payload A k v).
    { intros k v Hk. destruct (payload_copy A A' next k v HlookA) as [<- _].
      unfold payload. destruct (Catalog_lookup A' k v) as [cs|] eqn:Hcs; simpl.
      - rewrite (Hnew k v cs) by done. simpl. by destruct (cs_source cs).
      - rewrite Hold by auto. by rewrite HlookN. }
    assert (Hout : ∀ k v, k ∉ ks → ¬ has_pair C k v).
    { intros k v Hk. unfold has_pair. rewrite Hold by auto. rewrite HlookN. by intros []. }
    exists C, (S (S next)). split; [done|]. split; [lia|]. split; [done|].
    split; [|split; [|done]].
    + intros k. rewrite Catalog___contains___spec. split.
      * intros Hk. destruct (Catalog_wf_has_version C k HwfC Hk) as [v Hv].
        destruct (decide (k ∈ ks)); [done|]. by destruct (Hout k v).
      * intros Hk.
        destruct (Catalog_wf_has_version A k HA) as [v [cs Hcs]%has_pair_payload].
        { by apply Catalog___contains___spec, Hks. }
        rewrite <-Hpay in Hcs by done. unfold payload in Hcs.
        destruct (Catalog_lookup C k v) as [cs'|] eqn:Hcs'; [|done].
        by eapply Catalog_lookup_Some_key.
    + intros k v Hk. split; [|by apply Hpay]. by rewrite !has_pair_payload, Hpay.
  - intros (k & Hk & Habs%Catalog___contains___false).
    exists (S (S next)). rewrite copy_loop_absent; [done..|].
    exists k. split; [done|]. apply eq_None_not_Some. rewrite Hkeys, Habs. by intros [].
Qed.

(** ** Driver resolution *)

Lemma dict_merge_lookup (a b : gmap string Value) (key : string) :
  dict_merge a b !! key = match b !! key with Some x => Some x | None => a !! key end.
Proof.
  unfold dict_merge. rewrite lookup_union. by destruct (b !! key), (a !! key).
Qed.

Lemma get_driver_in_plugin_None (self : CatalogSource) kwargs (plugin : list DriverCls) :
  (∀ driver_cls, driver_cls ∈ plugin → name driver_cls ≠ driver_name (cs_source self)) →
  get_driver_in_plugin self kwargs plugin = None.
Proof.
  induction plugin as [|c plugin IH]; intros Hno; simpl; [done|].
  rewrite bool_decide_eq_false_2 by (apply Hno; by left).
  apply IH. intros c' Hin. apply Hno. by right.
Qed.

Lemma get_driver_in_plugin_app (self : CatalogSource) kwargs (l1 l2 : list DriverCls) :
  get_driver_in_plugin self kwargs (l1 ++ l2) =
  match get_driver_in_plugin self kwargs l1 with
  | Some returned => Some returned
  | None => get_driver_in_plugin self kwargs l2
  end.
Proof.
  induction l1 as [|c l1 IH]; simpl; [done|].
  by destruct (bool_decide (name c = driver_name (cs_source self))).
Qed.

Lemma get_driver_in_plugins_concat (self : CatalogSource) kwargs
    (plugins : list (list DriverCls)) :
  get_driver_in_plugins self kwargs plugins =
  match get_driver_in_plugin self kwargs (concat plugins) with
  | Some returned => returned
  | None =>
      Raise (ValueError ("Driver " +:+ driver_name (cs_source self) +:+ " not found."))
  end.
Proof.
  induction plugins as [|plugin plugins IH]; simpl; [done|].
  rewrite get_driver_in_plugin_app.
  by destruct (get_driver_in_plugin self kwargs plugin).
Qed.

(** C9.  [get_driver] goes through the driver types of the plugin registry in
    order.  The first one whose [name] equals the source's [driver_name] is
    called with the source's catalog and with [driver_kwargs] merged with the
    overrides, an override winning on a key both define, and what the call
    gives is returned; when no driver type has that name, ValueError is raised
    with the message "Driver <driver_name> not found.". *)
Theorem get_driver_spec
    (plugins : list (list DriverCls)) (self : CatalogSource) (kwargs : gmap string Value) :
  (∀ before driver_cls after,
     concat plugins = before ++ driver_cls :: after →
     (∀ c, c ∈ before → name c ≠ driver_name (cs_source self)) →
     name driver_cls = driver_name (cs_source self) →
     CatalogSource_get_driver plugins self kwargs =
     DriverCls___call__ driver_cls (catalog self)
       (dict_merge (driver_kwargs (cs_source self)) kwargs)) ∧
  (∀ key, dict_merge (driver_kwargs (cs_source self)) kwargs !! key =
          match kwargs !! key with
          | Some x => Some x
          | None => driver_kwargs (cs_source self) !! key
          end) ∧
  ((∀ driver_cls, driver_cls ∈ concat plugins →
      name driver_cls ≠ driver_name (cs_source self)) →
   CatalogSource_get_driver plugins self kwargs =
   Raise (ValueError ("Driver " +:+ driver_name (cs_source self) +:+ " not found."))).
Proof.
  unfold CatalogSource_get_driver. rewrite get_driver_in_plugins_concat.
  split; [|split].
  - intros before driver_cls after -> Hbefore Hname.
    rewrite get_driver_in_plugin_app, (get_driver_in_plugin_None _ _ before) by done.
    simpl. by rewrite bool_decide_eq_true_2.
  - apply dict_merge_lookup.
  - intros Hno. by rewrite get_driver_in_plugin_None.
Qed.

(** * Further properties *)

(** ** Filter *)

(** X1.  For a well-formed catalog [A], [filter(A, predicate)] raises nothing
    and returns a new catalog holding exactly the pairs of [A] whose
    CatalogSource, as it stands in the copy the predicate is run on, passes
    the predicate; each kept pair has the payload it has in [A]. *)
Theorem filter_spec (A : Catalog) (predicate : CatalogSource → bool) (next : CatalogRef) :
  Catalog_wf A →
  ∃ C next', Catalog_filter A predicate next = (Ok C, next') ∧
    (next ≤ cat_ref C < next')%nat ∧
    Catalog_wf C ∧
    ∀ k v, payload C k v =
           match Catalog_lookup A k v with
           | Some cs =>
               if predicate (CatalogSource___init__ (cs_source cs) k next v)
               then Some (cs_source cs) else None
           | None => None
           end.
Proof.
  intros HA. unfold Catalog_filter.
  destruct (Catalog_copy_run A next) as (A' & HrunA & HrefA & HlookA & HwfA).
  destruct (Catalog___init___run (S next)) as (N & HrunN & HrefN & HsrcN & HwfN).
  rewrite M_bind_run, HrunA, M_bind_run, HrunN. unfold lift.
  specialize (HwfA HA).
  assert (HlookN : ∀ k v, Catalog_lookup N k v = None).
  { intros k v. unfold Catalog_lookup. by rewrite HsrcN, lookup_empty. }
  set (g := fun k v => match Catalog_lookup A' k v with
                       | Some cs => predicate cs
                       | None => false
                       end).
  erewrite (copy_loop_intro (fun _ _ => false) g AssertionError A'); last first.
  { intros k v cs a _ Hlook. unfold copy_step, g. simpl. by rewrite Hlook. }
  destruct (copy_loop_spec (fun _ _ => false) g AssertionError A' (Catalog_keys A') N HwfA
              (fun k => proj1 (elem_of_Catalog_keys A' k)) HwfN)
    as [(C & -> & HwfC & HrefC & _ & Hnew & Hold)|(_ & k & v & cs & _ & _ & [=])].
  exists C, (S (S next)). split; [done|]. split; [lia|]. split; [done|].
  intros k v. unfold payload.
  pose proof (HlookA k v) as Hcopy.
  destruct (Catalog_lookup A k v) as [cs|] eqn:Hcs; simpl in Hcopy.
  - destruct (Catalog_wf_lookup A k v cs HA Hcs) as (_ & Hid & Hver & _).
    rewrite Hid, Hver in Hcopy.
    destruct (predicate (CatalogSource___init__ (cs_source cs) k next v)) eqn:Hp.
    + rewrite (Hnew k v _ ltac:(apply elem_of_Catalog_keys; by eapply Catalog_lookup_Some_key)
                 Hcopy); [simpl; by destruct (cs_source cs)|].
      unfold g. by rewrite Hcopy.
    + rewrite Hold; [by rewrite HlookN|]. right; right. unfold g. by rewrite Hcopy.
  - rewrite Hold; [by rewrite HlookN|]. by right; left.
Qed.

(** ** Equality *)

Lemma for_return_cases {A R} (xs : list A) (body : A → Result (option R)) (r : R) :
  (∀ x, x ∈ xs → body x = Ok None ∨ body x = Ok (Some r)) →
  (for_return xs body = Ok None ∧ ∀ x, x ∈ xs → body x = Ok None)
  ∨ (for_return xs body = Ok (Some r) ∧ ∃ x, x ∈ xs ∧ body x = Ok (Some r)).
Proof.
  induction xs as [|x xs IH]; intros Hbody; simpl.
  - left. split; [done|]. by intros x ?%elem_of_nil.
  - destruct (Hbody x ltac:(by left)) as [Hx|Hx]; rewrite Hx.
    + destruct IH as [[Hrun Hall]|[Hrun (y & Hy & Hby)]].
      { intros y Hy. apply Hbody. by right. }
      * left. split; [done|]. intros y [->|Hy]%elem_of_cons; [done | by apply Hall].
      * right. split; [done|]. exists y. split; [by right | done].
    + right. split; [done|]. exists x. split; [by left | done].
Qed.

Lemma Catalog___eq___cases (C U : Catalog) (next : CatalogRef) :
  Catalog_wf C → Catalog_wf U →
  (Catalog___eq__ C U next = (Ok true, S (S (S next))) ∧
     ∀ k v, payload C k v = payload U k v)
  ∨ (Catalog___eq__ C U next = (Ok false, S (S (S next))) ∧
     ∃ k v, payload C k v ≠ payload U k v).
Proof.
  intros HC HU. unfold Catalog___eq__. rewrite M_bind_run.
  destruct (Catalog_difference_run C U next HC HU) as (D & -> & _ & HwfD & Hpay).
  destruct (decide (Catalog___len__ D = 0%nat)) as [Hlen|Hlen].
  - rewrite bool_decide_eq_false_2 by lia. unfold lift.
    assert (Hpairs : ∀ k v, is_Some (payload C k v) ↔ is_Some (payload U k v)).
    { intros k v. pose proof (proj1 (Catalog___len___zero D HwfD) Hlen k v) as Hn.
      apply not_has_pair_payload in Hn. rewrite Hpay in Hn.
      destruct (payload C k v), (payload U k v); try done; split; intros []; done. }
    set (inner := fun k v =>
      item1 ← Catalog___getitem__ C k;
      a ← Item___getitem__ item1 v;
      item2 ← Catalog___getitem__ U k;
      b ← Item___getitem__ item2 v;
      if negb (CatalogSource___eq__ a b) then Ok (Some false) else Ok None).
    change (for_return (Catalog_keys C) _)
      with (for_return (Catalog_keys C)
              (fun k => item ← Catalog___getitem__ C k;
                        versions ← Item_versions item;
                        for_return (map_to_list versions).*1 (inner k))).
    assert (Hinner : ∀ k v a, Catalog_lookup C k v = Some a →
      (inner k v = Ok None ∧ payload C k v = payload U k v)
      ∨ (inner k v = Ok (Some false) ∧ payload C k v ≠ payload U k v)).
    { intros k v a Ha. unfold inner.
      pose proof (item_getitem_found C k v a HC Ha) as HgetC.
      destruct (Catalog___getitem__ C k) as [itemC|]; simpl in HgetC |- *; [|done].
      rewrite HgetC. simpl.
      destruct (Hpairs k v) as [Hsome _]. unfold payload in Hsome |- *.
      rewrite Ha in Hsome |- *. simpl in Hsome |- *.
      destruct (Catalog_lookup U k v) as [b|] eqn:Hb; [|by destruct Hsome; eauto].
      pose proof (item_getitem_found U k v b HU Hb) as HgetU.
      destruct (Catalog___getitem__ U k) as [itemU|]; simpl in HgetU |- *; [|done].
      rewrite HgetU. simpl.
      destruct (Catalog_wf_lookup C k v a HC Ha) as (_ & Hida & Hva & _).
      destruct (Catalog_wf_lookup U k v b HU Hb) as (_ & Hidb & Hvb & _).
      destruct (CatalogSource___eq__ a b) eqn:Heq; simpl.
      - left. split; [done|]. apply CatalogSource___eq___spec in Heq as (_ & _ & ->). done.
      - right. split; [done|]. intros [= Hsrc].
        apply not_true_iff_false in Heq. apply Heq, CatalogSource___eq___spec.
        split; [congruence|]. split; [congruence | done]. }
    assert (Houter : ∀ k versions, _sources C !! k = Some versions →
      let r := (item ← Catalog___getitem__ C k;
                versions ← Item_versions item;
                for_return (map_to_list versions).*1 (inner k)) in
      (r = Ok None ∧ ∀ v, payload C k v = payload U k v)
      ∨ (r = Ok (Some false) ∧ ∃ v, payload C k v ≠ payload U k v)).
    { intros k versions Hk. simpl.
      destruct (getitem_found C k versions HC Hk) as (top & -> & _). simpl.
      assert (Hlk : ∀ v, Catalog_lookup C k v = versions !! v).
      { intros v. unfold Catalog_lookup. by rewrite Hk. }
      destruct (for_return_cases (map_to_list versions).*1 (inner k) false)
        as [[-> Hall]|[-> (v & Hv & Hbv)]].
      - intros v [[v' a] [-> Hin%elem_of_map_to_list]]%list_elem_of_fmap. simpl.
        rewrite <-Hlk in Hin. destruct (Hinner k v' a Hin) as [[? _]|[? _]]; auto.
      - left. split; [done|]. intros v.
        destruct (Catalog_lookup C k v) as [a|] eqn:Ha.
        + destruct (Hinner k v a Ha) as [[_ ?]|[Hi _]]; [done|].
          rewrite Hall in Hi; [done|]. apply list_elem_of_fmap. exists (v, a).
          split; [done|]. apply elem_of_map_to_list. by rewrite <-Hlk.
        + destruct (Hpairs k v) as [_ Hsome]. unfold payload in Hsome |- *.
          rewrite Ha in Hsome |- *. simpl in *.
          destruct (Catalog_lookup U k v); [|done]. by destruct Hsome; eauto.
      - right. split; [done|]. exists v.
        apply list_elem_of_fmap in Hv as [[v' a] [-> Hin%elem_of_map_to_list]]. simpl in *.
        rewrite <-Hlk in Hin. destruct (Hinner k v' a Hin) as [[Hi _]|[_ ?]]; [congruence|done]. }
    destruct (for_return_cases (Catalog_keys C)
                (fun k => item ← Catalog___getitem__ C k;
                          versions ← Item_versions item;
                          for_return (map_to_list versions).*1 (inner k)) false)
      as [[Hrun Hall]|[Hrun (k & Hk & Hbk)]].
    + intros k [versions Hk]%elem_of_Catalog_keys.
      destruct (Houter k versions Hk) as [[? _]|[? _]]; auto.
    + left. rewrite Hrun. simpl. split; [done|]. intros k v.
      destruct (_sources C !! k) as [versions|] eqn:Hck.
      * destruct (Houter k versions Hck) as [[_ ?]|[Hr _]]; [done|].
        simpl in Hr. rewrite Hall in Hr; [done|]. apply elem_of_Catalog_keys. eauto.
      * destruct (Hpairs k v) as [_ Hsome]. unfold payload, Catalog_lookup in Hsome |- *.
        rewrite Hck in Hsome |- *. simpl in *.
        destruct (_sources U !! k ≫= (fun versions => versions !! v)); [|done].
        by destruct Hsome; eauto.
    + right. rewrite Hrun. simpl. split; [done|].
      apply elem_of_Catalog_keys in Hk as [versions Hk].
      destruct (Houter k versions Hk) as [[Hr _]|[_ [v Hv]]]; [simpl in Hr; congruence|].
      by exists k, v.
  - rewrite bool_decide_eq_true_2 by lia. right. split; [done|].
    destruct (Catalog___len___nonzero D HwfD Hlen) as (k & v & Hkv).
    exists k, v. intros Hsame.
    apply has_pair_payload in Hkv. rewrite Hpay, Hsame in Hkv.
    destruct (payload U k v); by destruct Hkv.
Qed.

(** X2.  On well-formed catalogs [==] raises nothing and is deep equality:
    it is [True] exactly when both catalogs hold the same
    (identifier, version) pairs with equal payloads, whatever the identity of
    the two catalog objects. *)
Theorem Catalog___eq___spec (C U : Catalog) (next : CatalogRef) :
  Catalog_wf C → Catalog_wf U →
  ∃ b next', Catalog___eq__ C U next = (Ok b, next') ∧
    (b = true ↔ ∀ k v, payload C k v = payload U k v).
Proof.
  intros HC HU.
  destruct (Catalog___eq___cases C U next HC HU) as [[Hrun Hsame]|[Hrun (k & v & Hne)]].
  - by exists true, (S (S (S next))).
  - exists false, (S (S (S next))). split; [done|]. split; [done|].
    intros Hsame. by destruct Hne.
Qed.


(** ** Deleting, and the length *)

Lemma Catalog___len___size (C : Catalog) : Catalog___len__ C = size (_sources C).
Proof.
  unfold Catalog___len__, Catalog_keys, sources. by rewrite length_fmap, length_map_to_list.
Qed.

(** X3.  [del C[k]] on an identifier that is absent raises KeyError and
    leaves the catalog as it was; on one that is present it removes every
    version stored under it and nothing else, so that [k in C] is false
    afterwards and the length is one less. *)
Theorem delitem_spec (C : Catalog) (k : string) :
  (Catalog___contains__ C k = false → Catalog___delitem__ k C = (Raise KeyError, C)) ∧
  (Catalog___contains__ C k = true →
     ∃ C', Catalog___delitem__ k C = (Ok (), C') ∧
       Catalog___contains__ C' k = false ∧
       (∀ v, ¬ has_pair C' k v) ∧
       (∀ k' v, k' ≠ k → Catalog_lookup C' k' v = Catalog_lookup C k' v) ∧
       S (Catalog___len__ C') = Catalog___len__ C).
Proof.
  unfold Catalog___delitem__. split.
  - intros Hk%Catalog___contains___false. by rewrite Hk.
  - intros [versions Hk]%Catalog___contains___spec. rewrite Hk.
    eexists. split; [done|]. split; [|split; [|split]].
    + apply Catalog___contains___false. simpl. apply lookup_delete_eq.
    + intros v [cs Hcs]. unfold Catalog_lookup in Hcs. simpl in Hcs.
      by rewrite lookup_delete_eq in Hcs.
    + intros k' v Hne. unfold Catalog_lookup. simpl. by rewrite lookup_delete_ne.
    + rewrite !Catalog___len___size. simpl.
      rewrite map_size_delete_Some by eauto.
      assert (size (_sources C) ≠ 0%nat); [|lia].
      apply map_size_non_empty_iff. intros Hempty. by rewrite Hempty, lookup_empty in Hk.
Qed.

(** X4.  Storing a source under an identifier that is absent and deleting
    that identifier again gives back the catalog as it was. *)
Theorem setitem_delitem_roundtrip (C : Catalog) (k : string) (s : Source) :
  Catalog___contains__ C k = false →
  ∃ C1, Catalog___setitem__ k s C = (Ok (), C1) ∧
    Catalog___contains__ C1 k = true ∧
    Catalog___delitem__ k C1 = (Ok (), C).
Proof.
  intros Hk%Catalog___contains___false.
  eexists. split; [done|]. split.
  - apply Catalog___contains___spec. simpl. rewrite lookup_insert_eq. eauto.
  - unfold Catalog___delitem__. simpl. rewrite lookup_insert_eq.
    rewrite delete_insert_eq, delete_id by done. by destruct C.
Qed.

(** X5.  The length counts identifiers, not versions: [cat[k][v] = s] with
    [v > 0] leaves the length unchanged when [k] is already present, whatever
    [v], and adds one when [k] is new. *)
Theorem len_assign_version (C : Catalog) (k : string) (v : Z) (s : Source) :
  Catalog_wf C → 0 < v →
  ∃ C', assign_version k v s C = Ok C' ∧
    Catalog___len__ C' =
    if Catalog___contains__ C k then Catalog___len__ C else S (Catalog___len__ C).
Proof.
  intros Hwf Hv. exists (put k v s C). split; [by apply assign_version_ok|].
  rewrite !Catalog___len___size. unfold put. simpl.
  destruct (_sources C !! k) as [versions|] eqn:Hk.
  - rewrite (proj2 (Catalog___contains___spec C k)) by eauto.
    apply map_size_insert_Some. eauto.
  - rewrite (proj2 (Catalog___contains___false C k)) by done.
    by apply map_size_insert_None.
Qed.

(** ** Writing a version and reading it back *)

(** X6.  After [cat[k][v] = s] with [v > 0] on a well-formed catalog,
    [cat[k][v]] is a CatalogSource wrapping [s] at version [v].  [cat[k]] is
    that CatalogSource when no version under [k] was greater than [v], and is
    still the former [cat[k]] when that one had a version greater than [v]. *)
Theorem assign_version_read_back (C : Catalog) (k : string) (v : Z) (s : Source) :
  Catalog_wf C → 0 < v →
  ∃ C' top versions,
    assign_version k v s C = Ok C' ∧
    (item ← Catalog___getitem__ C' k; Item___getitem__ item v)
      = Ok (CatalogSource___init__ s k (cat_ref C) v) ∧
    Catalog___getitem__ C' k = Ok (Found top versions) ∧
    ((∀ v', has_pair C k v' → v' ≤ v) → top = CatalogSource___init__ s k (cat_ref C) v) ∧
    (∀ old, is_latest C k old → v < version old → top = old).
Proof.
  intros Hwf Hv.
  pose proof (put_wf k v s C Hwf Hv) as Hwf'.
  assert (Hnew : Catalog_lookup (put k v s C) k v
                 = Some (CatalogSource___init__ s k (cat_ref C) v)).
  { rewrite Catalog_lookup_put. by rewrite decide_True. }
  destruct (Catalog_lookup_Some_key _ _ _ _ Hnew) as [versions Hk].
  destruct (getitem_found (put k v s C) k versions Hwf' Hk)
    as (top & Hget & Htop & Hmax & _).
  assert (Hlk : ∀ v', Catalog_lookup (put k v s C) k v' = versions !! v').
  { intros v'. unfold Catalog_lookup. by rewrite Hk. }
  exists (put k v s C), top, versions.
  split; [by apply assign_version_ok|].
  split; [by apply item_getitem_found|]. split; [done|]. split.
  - intros Hle.
    assert (Hge : v ≤ version top) by (apply Hmax; rewrite <-Hlk, Hnew; eauto).
    rewrite <-Hlk, Catalog_lookup_put in Htop.
    destruct (decide (k = k ∧ version top = v)) as [[_ Heq]|Hne]; [congruence|].
    assert (version top ≤ v) by (apply Hle; by exists top).
    exfalso. apply Hne. split; [done | lia].
  - intros old (versions0 & Hk0 & Hold & Hmax0) Hlt.
    assert (Hold' : versions !! version old = Some old).
    { rewrite <-Hlk, Catalog_lookup_put, decide_False by (intros [_ ?]; lia).
      unfold Catalog_lookup. by rewrite Hk0. }
    assert (Hge : version old ≤ version top) by (apply Hmax; eauto).
    rewrite <-Hlk, Catalog_lookup_put, decide_False in Htop by (intros [_ ?]; lia).
    unfold Catalog_lookup in Htop. rewrite Hk0 in Htop. simpl in Htop.
    assert (version top ≤ version old) by (apply Hmax0; eauto).
    assert (version top = version old) as Heq by lia.
    rewrite Heq in Htop. congruence.
Qed.

(** X7.  A placeholder does not follow the entry it created.  Assigning
    through one placeholder twice, at versions [v1] and then [v2], leaves
    only [v2] under the identifier: the second assignment replaces the entry
    the first one made.  Subscripting the catalog again for the second
    assignment keeps both versions. *)
Theorem placeholder_reuse_replaces
    (C : Catalog) (k : string) (v1 v2 : Z) (s1 s2 : Source) :
  Catalog_wf C → Catalog___contains__ C k = false → 0 < v1 → 0 < v2 → v1 ≠ v2 →
  ∃ dummy C1 C2 C2',
    Catalog___getitem__ C k = Ok (NotFound dummy) ∧
    DummyCatalogSource___setitem__ dummy v1 s1 C = (Ok (), C1) ∧
    DummyCatalogSource___setitem__ dummy v2 s2 C1 = (Ok (), C2) ∧
    (∀ v, has_pair C2 k v ↔ v = v2) ∧
    assign_version k v2 s2 C1 = Ok C2' ∧
    (∀ v, has_pair C2' k v ↔ v = v1 ∨ v = v2).
Proof.
  intros Hwf Hk%Catalog___contains___false Hv1 Hv2 Hne.
  assert (Hput : put k v1 s1 C =
    {| cat_ref := cat_ref C;
       _sources := <[k := stored (CatalogSource___init__ s1 k (cat_ref C) v1)]> (_sources C) |}).
  { unfold put, stored. rewrite Hk. simpl. by rewrite insert_empty. }
  eexists _, _, _, (put k v2 s2 (put k v1 s1 C)).
  split; [by apply getitem_notfound|].
  unfold DummyCatalogSource___setitem__. simpl.
  rewrite !bool_decide_eq_true_2 by lia. simpl.
  split; [done|]. split; [done|]. split; [|split].
  - intros v. unfold has_pair, Catalog_lookup, stored. simpl.
    rewrite lookup_insert_eq. simpl. rewrite lookup_singleton_is_Some. naive_solver.
  - rewrite <-Hput. apply assign_version_ok; [by apply put_wf | done].
  - intros v. unfold has_pair. rewrite !Catalog_lookup_put.
    unfold Catalog_lookup. rewrite Hk. simpl.
    destruct (decide (k = k ∧ v = v2)) as [[_ ->]|?]; [split; eauto|].
    destruct (decide (k = k ∧ v = v1)) as [[_ ->]|?]; [split; eauto|].
    split; [by intros [] | naive_solver].
Qed.

(** ** Laws of the set algebra *)

(** X9.  Intersection does not depend on the order of its operands: on
    well-formed catalogs, [intersection(A, B)] and [intersection(B, A)] either
    both raise AssertionError or both return, and the two results hold the
    same pairs with the same payloads and compare [==]. *)
Theorem intersection_comm (A B : Catalog) (n m e : CatalogRef) :
  Catalog_wf A → Catalog_wf B →
  (∃ C1 C2 n' m' e',
     Catalog_intersection A B n = (Ok C1, n') ∧
     Catalog_intersection B A m = (Ok C2, m') ∧
     (∀ k v, payload C1 k v = payload C2 k v) ∧
     Catalog___eq__ C1 C2 e = (Ok true, e'))
  ∨ (∃ n' m',
     Catalog_intersection A B n = (Raise AssertionError, n') ∧
     Catalog_intersection B A m = (Raise AssertionError, m')).
Proof.
  intros HA HB.
  destruct (Catalog_intersection_run A B n HA HB)
    as [(C1 & Hrun1 & _ & Hwf1 & Hagree & Hpay1)|(Hrun1 & k & v & sa & sb & Hsa & Hsb & Hne)];
  destruct (Catalog_intersection_run B A m HB HA)
    as [(C2 & Hrun2 & _ & Hwf2 & Hagree' & Hpay2)
       |(Hrun2 & k' & v' & sb' & sa' & Hsb' & Hsa' & Hne')].
  - left. exists C1, C2, (S (S (S n))), (S (S (S m))), (S (S (S e))).
    split; [done|]. split; [done|].
    assert (Hsame : ∀ k v, payload C1 k v = payload C2 k v).
    { intros k v. rewrite Hpay1, Hpay2.
      destruct (payload A k v) as [sa|] eqn:Ea, (payload B k v) as [sb|] eqn:Eb; try done.
      f_equal. by eapply Hagree. }
    split; [done|]. by apply Catalog___eq___same.
  - destruct Hne'. symmetry. by eapply Hagree.
  - destruct Hne. symmetry. by eapply Hagree'.
  - right. by exists (S (S (S n))), (S (S (S m))).
Qed.

(** X10.  Union depends on the order of its operands only through
    conflicts: on well-formed catalogs [union(A, B) == union(B, A)] is [True]
    exactly when every pair held by both carries the same payload in both. *)
Theorem union_comm_iff (A B : Catalog) (n m e : CatalogRef) :
  Catalog_wf A → Catalog_wf B →
  ∃ U1 U2 n' m' b e',
    Catalog_union A B n = (Ok U1, n') ∧
    Catalog_union B A m = (Ok U2, m') ∧
    Catalog___eq__ U1 U2 e = (Ok b, e') ∧
    (b = true ↔
     ∀ k v sa sb, payload A k v = Some sa → payload B k v = Some sb → sa = sb).
Proof.
  intros HA HB.
  destruct (Catalog_union_run A B n HA HB) as (U1 & Hrun1 & _ & Hwf1 & Hpay1).
  destruct (Catalog_union_run B A m HB HA) as (U2 & Hrun2 & _ & Hwf2 & Hpay2).
  destruct (Catalog___eq___cases U1 U2 e Hwf1 Hwf2) as [[Hrun Hsame]|[Hrun (k & v & Hne)]].
  - exists U1, U2, (S (S n)), (S (S m)), true, (S (S (S e))).
    do 3 (split; [done|]). split; [|done]. intros _ k v sa sb Hsa Hsb.
    specialize (Hsame k v). rewrite Hpay1, Hpay2, Hsa, Hsb in Hsame. congruence.
  - exists U1, U2, (S (S n)), (S (S m)), false, (S (S (S e))).
    do 3 (split; [done|]). split; [done|]. intros Hagree. exfalso. apply Hne.
    rewrite Hpay1, Hpay2.
    destruct (payload A k v) as [sa|] eqn:Ea, (payload B k v) as [sb|] eqn:Eb; try done.
    f_equal. symmetry. by eapply Hagree.
Qed.

(** X11.  Union is idempotent: for a well-formed catalog [A], [union(A, A)]
    holds the pairs and payloads of [A] and compares [==] to it. *)
Theorem union_idempotent (A : Catalog) (n e : CatalogRef) :
  Catalog_wf A →
  ∃ U n' e', Catalog_union A A n = (Ok U, n') ∧
    (∀ k v, payload U k v = payload A k v) ∧
    Catalog___eq__ U A e = (Ok true, e').
Proof.
  intros HA.
  destruct (Catalog_union_run A A n HA HA) as (U & Hrun & _ & Hwf & Hpay).
  assert (Hsame : ∀ k v, payload U k v = payload A k v).
  { intros k v. rewrite Hpay. by destruct (payload A k v). }
  exists U, (S (S n)), (S (S (S e))). split; [done|]. split; [done|].
  by apply Catalog___eq___same.
Qed.

(** X12.  Difference does not depend on the order of its operands: on
    well-formed catalogs [difference(A, B)] and [difference(B, A)] hold the
    same pairs with the same payloads and compare [==]. *)
Theorem difference_comm (A B : Catalog) (n m e : CatalogRef) :
  Catalog_wf A → Catalog_wf B →
  ∃ D1 D2 n' m' e',
    Catalog_difference A B n = (Ok D1, n') ∧
    Catalog_difference B A m = (Ok D2, m') ∧
    (∀ k v, payload D1 k v = payload D2 k v) ∧
    Catalog___eq__ D1 D2 e = (Ok true, e').
Proof.
  intros HA HB.
  destruct (Catalog_difference_run A B n HA HB) as (D1 & Hrun1 & _ & Hwf1 & Hpay1).
  destruct (Catalog_difference_run B A m HB HA) as (D2 & Hrun2 & _ & Hwf2 & Hpay2).
  assert (Hsame : ∀ k v, payload D1 k v = payload D2 k v).
  { intros k v. rewrite Hpay1, Hpay2. by destruct (payload A k v), (payload B k v). }
  exists D1, D2, (S (S (S n))), (S (S (S m))), (S (S (S e))).
  do 3 (split; [done|]). by apply Catalog___eq___same.
Qed.

Lemma Catalog_slice_run (A : Catalog) (ks : list string) (next : CatalogRef) :
  Catalog_wf A →
  (∀ k, k ∈ ks → is_Some (_sources A !! k)) →
  ∃ C, Catalog_slice A ks next = (Ok C, S (S next)) ∧ Catalog_wf C ∧
    ∀ k v, payload C k v = if decide (k ∈ ks) then payload A k v else None.
Proof.
  intros HA Hks. unfold Catalog_slice.
  destruct (Catalog_copy_run A next) as (A' & HrunA & HrefA & HlookA & HwfA).
  destruct (Catalog___init___run (S next)) as (N & HrunN & HrefN & HsrcN & HwfN).
  rewrite M_bind_run, HrunA, M_bind_run, HrunN. unfold lift.
  specialize (HwfA HA). rewrite slice_loop_copy_loop by done.
  assert (HlookN : ∀ k v, Catalog_lookup N k v = None).
  { intros k v. unfold Catalog_lookup. by rewrite HsrcN, lookup_empty. }
  destruct (copy_loop_spec (fun _ _ => false) (fun _ _ => true) AttributeError A' ks N HwfA)
    as [(C & -> & HwfC & HrefC & _ & Hnew & Hold)|(_ & ? & ? & ? & _ & _ & [=])]; [|done|].
  { intros k Hk. destruct (Catalog_wf_has_version A k HA (Hks k Hk)) as [v Hv].
    apply (payload_copy A A' next k v HlookA) in Hv as [cs Hcs].
    by eapply Catalog_lookup_Some_key. }
  exists C. split; [done|]. split; [done|]. intros k v.
  destruct (decide (k ∈ ks)) as [Hk|Hk].
  - destruct (payload_copy A A' next k v HlookA) as [<- _].
    unfold payload. destruct (Catalog_lookup A' k v) as [cs|] eqn:Hcs; simpl.
    + rewrite (Hnew k v cs) by done. simpl. by destruct (cs_source cs).
    + rewrite Hold by auto. by rewrite HlookN.
  - unfold payload. rewrite Hold by auto. by rewrite HlookN.
Qed.

(** X13.  Slicing a well-formed catalog by all of its identifiers gives a
    catalog that compares [==] to it; slicing by no identifier gives an empty
    catalog. *)
Theorem slice_all_keys (A : Catalog) (n e : CatalogRef) :
  Catalog_wf A →
  (∃ C n' e', Catalog_slice A (Catalog_keys A) n = (Ok C, n') ∧
     (∀ k v, payload C k v = payload A k v) ∧
     Catalog___eq__ C A e = (Ok true, e')) ∧
  (∃ E n', Catalog_slice A [] n = (Ok E, n') ∧ Catalog___len__ E = 0%nat).
Proof.
  intros HA. split.
  - destruct (Catalog_slice_run A (Catalog_keys A) n HA) as (C & Hrun & Hwf & Hpay).
    { intros k. by rewrite elem_of_Catalog_keys. }
    assert (Hsame : ∀ k v, payload C k v = payload A k v).
    { intros k v. rewrite Hpay. destruct (decide (k ∈ Catalog_keys A)) as [|Hk]; [done|].
      symmetry. apply not_has_pair_payload. intros [cs Hcs].
      apply Hk, elem_of_Catalog_keys. by eapply Catalog_lookup_Some_key. }
    exists C, (S (S n)), (S (S (S e))). split; [done|]. split; [done|].
    by apply Catalog___eq___same.
  - destruct (Catalog_slice_run A [] n HA) as (E & Hrun & Hwf & Hpay).
    { by intros k ?%elem_of_nil. }
    exists E, (S (S n)). split; [done|]. apply Catalog___len___zero; [done|].
    intros k v. rewrite not_has_pair_payload, Hpay. by rewrite decide_False by apply not_elem_of_nil.
Qed.

(** ** Loading from plugins *)

Lemma for_each_concat {A S} (ls : list (list A)) (body : A → S → Result S) (s : S) :
  for_each ls (fun l s => for_each l body s) s = for_each (concat ls) body s.
Proof.
  revert s. induction ls as [|l ls IH]; intros s; simpl; [done|].
  rewrite for_each_app. destruct (for_each l body s); simpl; [apply IH | done].
Qed.

Lemma key_in_dec (l : list (CatalogKey.t * Source)) (k : string) (v : Z) :
  (∃ s, (CatalogKey.mk k v, s) ∈ l) ∨ (∀ s, (CatalogKey.mk k v, s) ∉ l).
Proof.
  destruct (decide (Exists (fun x : CatalogKey.t * Source => x.1 = CatalogKey.mk k v) l))
    as [Hex|Hno].
  - left. apply Exists_exists in Hex as ([key s] & Hin & Hkey). simpl in Hkey. subst key. eauto.
  - right. intros s Hs. apply Hno, Exists_exists. by exists (CatalogKey.mk k v, s).
Qed.

Lemma assign_all_spec (l : list (CatalogKey.t * Source)) (acc : Catalog) :
  Catalog_wf acc →
  (∀ key s, (key, s) ∈ l → 0 < CatalogKey.version key) →
  ∃ acc',
    for_each l (fun '(s_key, source) ret =>
      assign_version (CatalogKey.identifier s_key) (CatalogKey.version s_key) source ret) acc
    = Ok acc' ∧
    Catalog_wf acc' ∧ cat_ref acc' = cat_ref acc ∧
    (∀ k v, (∀ s, (CatalogKey.mk k v, s) ∉ l) →
       Catalog_lookup acc' k v = Catalog_lookup acc k v) ∧
    (∀ k v s, (CatalogKey.mk k v, s) ∈ l → has_pair acc' k v) ∧
    (∀ before key s after, l = before ++ (key, s) :: after →
       (∀ key' s', (key', s') ∈ after → key' ≠ key) →
       payload acc' (CatalogKey.identifier key) (CatalogKey.version key) = Some s).
Proof.
  revert acc. induction l as [|[[k0 v0] s0] l IH]; intros acc Hwf Hpos.
  - exists acc. simpl. do 4 (split; [done|]). split.
    + by intros k v s ?%elem_of_nil.
    + by intros [|? ?] ? ? ? ?.
  - assert (Hv0 : 0 < v0) by (apply (Hpos (CatalogKey.mk k0 v0) s0); by left).
    simpl. rewrite assign_version_ok by done.
    destruct (IH (put k0 v0 s0 acc)) as (acc' & Hrun & Hwf' & Href & Hold & Hin & Hlast).
    { by apply put_wf. }
    { intros key s Hks. apply (Hpos key s). by right. }
    exists acc'. split; [done|]. split; [done|]. split; [done|]. split; [|split].
    + intros k v Hnot. rewrite Hold.
      * rewrite Catalog_lookup_put, decide_False; [done|].
        intros [-> ->]. apply (Hnot s0). by left.
      * intros s Hs. apply (Hnot s). by right.
    + intros k v s Hc.
      destruct (key_in_dec l k v) as [[s' Hs']|Hnone]; [by eapply Hin|].
      apply elem_of_cons in Hc as [[= -> -> ->]|Hs]; [|by destruct (Hnone s)].
      unfold has_pair. rewrite Hold by done.
      rewrite Catalog_lookup_put, decide_True by done. eauto.
    + intros before key s after Heq Hafter.
      destruct before as [|x before]; simpl in Heq.
      * injection Heq as <- <- <-. simpl. unfold payload. rewrite Hold.
        -- rewrite Catalog_lookup_put, decide_True by done. simpl. by destruct s0.
        -- intros s' Hs'. by apply (Hafter _ _ Hs').
      * injection Heq as _ ->. by eapply Hlast.
Qed.

Lemma assign_all_nonpositive (l : list (CatalogKey.t * Source)) (acc : Catalog) :
  Catalog_wf acc →
  (∃ key s, (key, s) ∈ l ∧ CatalogKey.version key ≤ 0) →
  for_each l (fun '(s_key, source) ret =>
    assign_version (CatalogKey.identifier s_key) (CatalogKey.version s_key) source ret) acc
  = Raise AssertionError.
Proof.
  revert acc. induction l as [|[[k0 v0] s0] l IH]; intros acc Hwf (key & s & Hin & Hle).
  - by apply elem_of_nil in Hin.
  - simpl. destruct (decide (0 < v0)) as [Hv0|Hv0].
    + rewrite assign_version_ok by done. apply IH; [by apply put_wf|].
      apply elem_of_cons in Hin as [[= -> ->]|Hin]; [simpl in Hle; lia|]. eauto.
    + by rewrite assign_version_nonpositive by (done || lia).
Qed.

(** X14.  [from_plugins] over the (CatalogKey, Source) pairs the plugins
    contribute: when every key has a positive version it returns a new catalog
    holding exactly the contributed pairs, each with the payload contributed
    last for it; when some key has a version that is not positive, as a
    CatalogKey built without a version has (-1), it raises AssertionError. *)
Theorem from_plugins_spec (plugins : list (list (CatalogKey.t * Source))) (next : CatalogRef) :
  ((∀ key s, (key, s) ∈ concat plugins → 0 < CatalogKey.version key) →
     ∃ C next', Catalog_from_plugins plugins next = (Ok C, next') ∧
       (next ≤ cat_ref C < next')%nat ∧
       Catalog_wf C ∧
       (∀ k v, has_pair C k v ↔ ∃ s, (CatalogKey.mk k v, s) ∈ concat plugins) ∧
       (∀ before key s after,
          concat plugins = before ++ (key, s) :: after →
          (∀ key' s', (key', s') ∈ after → key' ≠ key) →
          payload C (CatalogKey.identifier key) (CatalogKey.version key) = Some s)) ∧
  ((∃ key s, (key, s) ∈ concat plugins ∧ CatalogKey.version key ≤ 0) →
     ∃ next', Catalog_from_plugins plugins next = (Raise AssertionError, next')) ∧
  (∀ identifier s, (CatalogKey___new__ identifier, s) ∈ concat plugins →
     ∃ next', Catalog_from_plugins plugins next = (Raise AssertionError, next')).
Proof.
  unfold Catalog_from_plugins.
  destruct (Catalog___init___run next) as (N & HrunN & HrefN & HsrcN & HwfN).
  rewrite M_bind_run, HrunN. unfold lift. rewrite for_each_concat.
  assert (Hfail : (∃ key s, (key, s) ∈ concat plugins ∧ CatalogKey.version key ≤ 0) →
    ∃ next',
      (for_each (concat plugins) (fun '(s_key, source) ret =>
         assign_version (CatalogKey.identifier s_key) (CatalogKey.version s_key) source ret) N,
       S next) = (Raise AssertionError, next')).
  { intros Hbad. exists (S next). by rewrite assign_all_nonpositive. }
  split; [|split; [done|]].
  - intros Hpos.
    destruct (assign_all_spec (concat plugins) N HwfN Hpos)
      as (C & -> & HwfC & HrefC & Hold & Hin & Hlast).
    exists C, (S next). split; [done|]. split; [lia|]. split; [done|]. split; [|done].
    intros k v. split; [|intros [s Hs]; by eapply Hin].
    intros Hkv.
    destruct (key_in_dec (concat plugins) k v) as [|Hnone]; [done|].
    exfalso. unfold has_pair in Hkv. rewrite Hold in Hkv by done.
    unfold Catalog_lookup in Hkv. rewrite HsrcN, lookup_empty in Hkv. by destruct Hkv.
  - intros identifier s Hin. apply Hfail. exists (CatalogKey___new__ identifier), s.
    split; [done|]. simpl. lia.
Qed.

(** ** Loading from files *)

Lemma join_step (cat c : Catalog) (n : CatalogRef) :
  Catalog_wf cat → Catalog_wf c →
  (Catalog_disjoint cat c ∧
     ∃ U n', Catalog_join cat c n = (Ok U, n') ∧ Catalog_wf U ∧
       ∀ k v, payload U k v =
              match payload c k v with
              | Some s => Some s
              | None => payload cat k v
              end)
  ∨ ((∃ k v, has_pair cat k v ∧ has_pair c k v) ∧
     ∃ n', Catalog_join cat c n = (Raise AssertionError, n')).
Proof.
  intros Hcat Hc.
  destruct (Catalog_join_run cat c n Hcat Hc) as [[Hdisj Hrun]|[Hshared Hrun]].
  - left. split; [done|].
    destruct (Catalog_union_run cat c (S (S (S n))) Hcat Hc) as (U & HU & _ & HwfU & Hpay).
    exists U, (S (S (S (S (S n))))). by rewrite Hrun.
  - right. split; [done|]. by exists (S (S (S n))).
Qed.

Section FromFiles.

Variable read_catalog : string → M CatalogRef Catalog.
Variable loaded : string → Catalog.

#[local] Abbreviation reads := (reads read_catalog loaded).

Lemma reads_has_pair (c : Catalog) file k v :
  (∀ k v, payload c k v = payload (loaded file) k v) →
  has_pair c k v ↔ has_pair (loaded file) k v.
Proof. intros Hsame. by rewrite !has_pair_payload, Hsame. Qed.

Lemma from_files_loop_ok (paths : list string) (cat : Catalog) (n : CatalogRef) :
  Catalog_wf cat → reads paths →
  Forall (fun f => Catalog_disjoint cat (loaded f)) paths →
  ForallOrdPairs (fun f g => Catalog_disjoint (loaded f) (loaded g)) paths →
  ∃ C n',
    for_each_M paths (fun file cat =>
      new_cat ← read_catalog file; Catalog_join cat new_cat) cat n = (Ok C, n') ∧
    Catalog_wf C ∧
    ∀ k v s, payload C k v = Some s ↔
             payload cat k v = Some s ∨ ∃ f, f ∈ paths ∧ payload (loaded f) k v = Some s.
Proof.
  revert cat n. induction paths as [|f paths IH]; intros cat n Hwf Hreads Hcat Hpair.
  - exists cat, n. split; [done|]. split; [done|]. intros k v s. split; [by left|].
    intros [?|(f & []%elem_of_nil & _)]. done.
  - destruct (Hreads f n ltac:(by left)) as (c & n1 & Hread & Hwfc & Hsame).
    apply Forall_cons in Hcat as [Hcatf Hcat]. inversion_clear Hpair as [|? ? Hf Hrest].
    simpl. rewrite M_bind_run, M_bind_run, Hread.
    destruct (join_step cat c n1 Hwf Hwfc)
      as [(_ & U & n2 & -> & HwfU & Hpay)|((k & v & Hk1 & Hk2) & _)]; last first.
    { destruct (Hcatf k v). split; [done|]. by apply (reads_has_pair c f). }
    assert (HU : ∀ k v s, payload U k v = Some s ↔
                          payload cat k v = Some s ∨ payload (loaded f) k v = Some s).
    { intros k v s. rewrite Hpay, <-Hsame. destruct (payload c k v) as [s'|] eqn:Hc.
      - split; [by right|]. intros [Hs|Hs]; [|done]. exfalso. apply (Hcatf k v).
        split; [apply has_pair_payload; eauto|].
        apply (reads_has_pair c f); [done|]. apply has_pair_payload. eauto.
      - split; [by left | by intros [?|?]]. }
    destruct (IH U n2 HwfU) as (C & n' & Hrun & HwfC & HC).
    { intros file m Hin. apply Hreads. by right. }
    { apply Forall_forall. intros g Hg k v [[s Hs]%has_pair_payload Hgk].
      apply HU in Hs as [Hs|Hs].
      - apply (proj1 (Forall_forall _ _) Hcat g Hg k v).
        split; [apply has_pair_payload; eauto | done].
      - apply (proj1 (Forall_forall _ _) Hf g Hg k v).
        split; [apply has_pair_payload; eauto | done]. }
    { done. }
    exists C, n'. split; [done|]. split; [done|].
    intros k v s. rewrite HC, HU. split.
    + intros [[?|?]|(g & Hg & ?)]; [by left|right..].
      * exists f. split; [by left | done].
      * exists g. split; [by right | done].
    + intros [?|(g & [->|Hg]%elem_of_cons & ?)]; [by left; left|by left; right|].
      right. by exists g.
Qed.

Lemma from_files_loop_overlap (paths : list string) (cat : Catalog) (n : CatalogRef) :
  Catalog_wf cat → reads paths →
  (∃ f k v, f ∈ paths ∧ has_pair cat k v ∧ has_pair (loaded f) k v) →
  ∃ n',
    for_each_M paths (fun file cat =>
      new_cat ← read_catalog file; Catalog_join cat new_cat) cat n
    = (Raise AssertionError, n').
Proof.
  revert cat n. induction paths as [|f0 paths IH];
    intros cat n Hwf Hreads (f & k & v & Hin & Hcat & Hf).
  - by apply elem_of_nil in Hin.
  - destruct (Hreads f0 n ltac:(by left)) as (c & n1 & Hread & Hwfc & Hsame).
    simpl. rewrite M_bind_run, M_bind_run, Hread.
    destruct (join_step cat c n1 Hwf Hwfc)
      as [(Hdisj & U & n2 & -> & HwfU & Hpay)|(_ & n2 & ->)]; [|by exists n2].
    apply elem_of_cons in Hin as [->|Hin].
    + destruct (Hdisj k v). split; [done|]. by apply (reads_has_pair c f0).
    + apply IH; [done| |].
      * intros file m Hfile. apply Hreads. by right.
      * exists f, k, v. split; [done|]. split; [|done].
        apply has_pair_payload. rewrite Hpay.
        apply has_pair_payload in Hcat. by destruct (payload c k v).
Qed.

Lemma from_files_loop_clash (before between after : list string) (f g : string)
    (cat : Catalog) (n : CatalogRef) k v :
  Catalog_wf cat → reads (before ++ f :: between ++ g :: after) →
  has_pair (loaded f) k v → has_pair (loaded g) k v →
  ∃ n',
    for_each_M (before ++ f :: between ++ g :: after) (fun file cat =>
      new_cat ← read_catalog file; Catalog_join cat new_cat) cat n
    = (Raise AssertionError, n').
Proof.
  revert cat n. induction before as [|p before IH]; intros cat n Hwf Hreads Hf Hg.
  - destruct (Hreads f n ltac:(by left)) as (c & n1 & Hread & Hwfc & Hsame).
    simpl. rewrite M_bind_run, M_bind_run, Hread.
    destruct (join_step cat c n1 Hwf Hwfc)
      as [(_ & U & n2 & -> & HwfU & Hpay)|(_ & n2 & ->)]; [|by exists n2].
    apply from_files_loop_overlap; [done| |].
    + intros file m Hfile. apply Hreads. by right.
    + exists g, k, v. split; [apply elem_of_app; right; by left|]. split; [|done].
      apply has_pair_payload. rewrite Hpay.
      apply (reads_has_pair c f) in Hf; [|done].
      apply has_pair_payload in Hf as [s ->]. eauto.
  - destruct (Hreads p n ltac:(by left)) as (c & n1 & Hread & Hwfc & Hsame).
    simpl. rewrite M_bind_run, M_bind_run, Hread.
    destruct (join_step cat c n1 Hwf Hwfc)
      as [(_ & U & n2 & -> & HwfU & Hpay)|(_ & n2 & ->)]; [|by exists n2].
    apply IH; [done| |done..].
    intros file m Hfile. apply Hreads. by right.
Qed.

(** X15.  [from_files] over files that each read as a well-formed catalog:
    when no two files of the list hold a common (identifier, version) pair it
    returns a catalog holding exactly the pairs of the files, with their
    payloads; when two files at different places of the list hold a common
    pair (a file listed twice, if it is not empty) it raises AssertionError
    instead of letting one overwrite the other. *)
Theorem from_files_spec (paths : list string) (next : CatalogRef) :
  reads paths →
  (ForallOrdPairs (fun f g => Catalog_disjoint (loaded f) (loaded g)) paths →
     ∃ C next', Catalog_from_files read_catalog paths next = (Ok C, next') ∧
       Catalog_wf C ∧
       ∀ k v s, payload C k v = Some s ↔
                ∃ f, f ∈ paths ∧ payload (loaded f) k v = Some s) ∧
  (∀ before f between g after k v,
     paths = before ++ f :: between ++ g :: after →
     has_pair (loaded f) k v → has_pair (loaded g) k v →
     ∃ next', Catalog_from_files read_catalog paths next = (Raise AssertionError, next')).
Proof.
  intros Hreads. unfold Catalog_from_files.
  destruct (Catalog___init___run next) as (N & HrunN & HrefN & HsrcN & HwfN).
  rewrite M_bind_run, HrunN.
  assert (HpayN : ∀ k v, payload N k v = None).
  { intros k v. unfold payload, Catalog_lookup. by rewrite HsrcN, lookup_empty. }
  split.
  - intros Hpair.
    destruct (from_files_loop_ok paths N (S next) HwfN Hreads) as (C & n' & Hrun & HwfC & HC);
      [|done|].
    { apply Forall_forall. intros f _ k v [[s Hs]%has_pair_payload _].
      by rewrite HpayN in Hs. }
    exists C, n'. split; [done|]. split; [done|].
    intros k v s. rewrite HC, HpayN. naive_solver.
  - intros before f between g after k v -> Hf Hg.
    by eapply from_files_loop_clash.
Qed.

End FromFiles.

(** ** Loading from directories *)

Lemma for_each_M_ext {A S T} (xs : list A) (body1 body2 : A → T → M S T) (t : T) (s : S) :
  (∀ x t' s', x ∈ xs → body1 x t' s' = body2 x t' s') →
  for_each_M xs body1 t s = for_each_M xs body2 t s.
Proof.
  revert t s. induction xs as [|x xs IH]; intros t s Hext; simpl; [done|].
  rewrite !M_bind_run, Hext by left.
  destruct (body2 x t s) as [[t'|e] s']; [|done].
  apply IH. intros y t'' s'' Hy. apply Hext. by right.
Qed.

Lemma from_dirs_listing_ok
    (ls : string → Result (list string)) (listing : string → list string)
    (paths acc : list string) :
  (∀ p, p ∈ paths → ls p = Ok (listing p)) →
  for_each paths (fun path files =>
    listing ← ls path;
    Ok (files ++ filter (fun f => str_endswith f ".yaml" = true) listing)) acc
  = Ok (acc ++ concat ((fun p => filter (fun f => str_endswith f ".yaml" = true) (listing p))
                         <$> paths)).
Proof.
  revert acc. induction paths as [|p paths IH]; intros acc Hall; simpl.
  - by rewrite app_nil_r.
  - rewrite (Hall p) by left. simpl. rewrite IH by (intros q Hq; apply Hall; by right).
    by rewrite <-app_assoc.
Qed.

Lemma from_dirs_listing_yaml (ls : string → Result (list string)) (paths acc files : list string) :
  for_each paths (fun path files =>
    listing ← ls path;
    Ok (files ++ filter (fun f => str_endswith f ".yaml" = true) listing)) acc
  = Ok files →
  Forall (fun f => str_endswith f ".yaml" = true) acc →
  Forall (fun f => str_endswith f ".yaml" = true) files.
Proof.
  revert acc. induction paths as [|p paths IH]; intros acc; simpl.
  - by intros [= ->].
  - destruct (ls p) as [l|e]; simpl; [|done].
    intros Hrun Hacc. apply (IH _ Hrun), Forall_app. split; [done|].
    apply Forall_forall. by intros f [? _]%list_elem_of_filter.
Qed.

(** X16.  [from_dirs] reads only names that end in ".yaml": it is
    [from_files] over the ".yaml" names of the directory listings, in the
    order of the directories and of their listings, and what reading any
    other file would give has no effect on its result; when listing a
    directory fails, it raises that error and reads no file. *)
Theorem from_dirs_spec
    (ls : string → Result (list string))
    (read_catalog : string → M CatalogRef Catalog) (paths : list string) (next : CatalogRef) :
  (∀ listing, (∀ p, p ∈ paths → ls p = Ok (listing p)) →
     Catalog_from_dirs ls read_catalog paths next =
     Catalog_from_files read_catalog
       (concat ((fun p => filter (fun f => str_endswith f ".yaml" = true) (listing p))
                  <$> paths)) next) ∧
  (∀ other_read : string → M CatalogRef Catalog,
     (∀ f n, str_endswith f ".yaml" = true → other_read f n = read_catalog f n) →
     Catalog_from_dirs ls other_read paths next =
     Catalog_from_dirs ls read_catalog paths next) ∧
  (∀ before p after e,
     paths = before ++ p :: after →
     (∀ q, q ∈ before → ∃ listing, ls q = Ok listing) →
     ls p = Raise e →
     Catalog_from_dirs ls read_catalog paths next = (Raise e, next)).
Proof.
  unfold Catalog_from_dirs. split; [|split].
  - intros listing Hall. rewrite M_bind_run. unfold lift.
    by rewrite (from_dirs_listing_ok ls listing paths [] Hall).
  - intros other_read Hsame. rewrite !M_bind_run. unfold lift.
    destruct (for_each paths _ []) as [files|e] eqn:Hrun; [|done].
    pose proof (from_dirs_listing_yaml ls paths [] files Hrun (Forall_nil_2 _)) as Hyaml.
    unfold Catalog_from_files. rewrite !M_bind_run.
    destruct (Catalog___init__ next) as [[N|e] n1]; [|done].
    apply for_each_M_ext. intros f cat n Hf.
    rewrite !M_bind_run, Hsame; [done|].
    by apply (proj1 (Forall_forall _ _) Hyaml f).
  - intros before p after e -> Hbefore Hp. rewrite M_bind_run. unfold lift.
    rewrite for_each_app.
    rewrite (from_dirs_listing_ok ls
               (fun q => match ls q with Ok l => l | Raise _ => [] end) before []).
    + simpl. by rewrite Hp.
    + intros q Hq. by destruct (Hbefore q Hq) as [l ->].
Qed.

(** ** From a lookup to a driver *)

(** X17.  The driver of a source looked up in a well-formed catalog is
    constructed with that catalog: [C[k].get_driver] with overrides calls the first
    driver type named after the source's [driver_name] with [C] itself and
    with the source's [driver_kwargs] under the overrides. *)
Theorem getitem_get_driver
    (C : Catalog) (k : string) (plugins : list (list DriverCls)) (kwargs : gmap string Value) :
  Catalog_wf C → Catalog___contains__ C k = true →
  ∃ cs versions, Catalog___getitem__ C k = Ok (Found cs versions) ∧
    ∀ before driver_cls after,
      concat plugins = before ++ driver_cls :: after →
      (∀ c, c ∈ before → name c ≠ driver_name (cs_source cs)) →
      name driver_cls = driver_name (cs_source cs) →
      CatalogSource_get_driver plugins cs kwargs =
      DriverCls___call__ driver_cls (cat_ref C)
        (dict_merge (driver_kwargs (cs_source cs)) kwargs).
Proof.
  intros Hwf [versions Hk]%Catalog___contains___spec.
  destruct (getitem_found C k versions Hwf Hk) as (cs & Hget & _ & _ & _ & Hcat).
  exists cs, versions. split; [done|].
  intros before driver_cls after Hplugins Hbefore Hname.
  unfold CatalogSource_get_driver.
  rewrite get_driver_in_plugins_concat, Hplugins, get_driver_in_plugin_app.
  rewrite (get_driver_in_plugin_None _ _ before) by done.
  simpl. by rewrite bool_decide_eq_true_2, Hcat.
Qed.

End Properties.

(** * The properties on the examples *)

Lemma cat_ds1_wf : Catalog_wf cat_ds1.
Proof. apply put_wf; [|lia]. apply Catalog___setitem___wf, Catalog_wf_empty. Defined.

Lemma cat_ds2_wf : Catalog_wf cat_ds2.
Proof. apply put_wf; [|lia]. apply Catalog_wf_empty. Defined.

Lemma cat_same_wf : Catalog_wf cat_same.
Proof. apply put_wf; [|lia]. apply Catalog_wf_empty. Defined.

Lemma cat_other_wf : Catalog_wf cat_other.
Proof. apply put_wf; [|lia]. apply Catalog_wf_empty. Defined.

Lemma payload_put_empty (r : CatalogRef) k0 v0 (s0 : Source (Value := string)) k v s :
  payload (put k0 v0 s0 {| cat_ref := r; _sources := ∅ |}) k v = Some s →
  k = k0 ∧ v = v0 ∧ s = s0.
Proof.
  unfold payload. rewrite Catalog_lookup_put.
  destruct (decide (k = k0 ∧ v = v0)) as [[-> ->]|_]; simpl.
  - destruct s0. by intros [= <-].
  - unfold Catalog_lookup. simpl. by rewrite lookup_empty.
Qed.

Lemma union_witness :
  Catalog_wf cat_ds1 ∧ Catalog_wf cat_other ∧
  ∃ C next', Catalog_union cat_ds1 cat_other 4%nat = (Ok C, next') ∧
    payload C "ds1" 1 = Some source_json ∧ payload C "ds1" 2 = Some source_json.
Proof.
  split; [exact cat_ds1_wf|]. split; [exact cat_other_wf|].
  destruct (union_spec cat_ds1 cat_other 4%nat cat_ds1_wf cat_other_wf)
    as (C & next' & Hrun & _ & _ & _ & HB & HA).
  exists C, next'. split; [exact Hrun|]. split.
  - rewrite HB; [reflexivity|]. eexists. reflexivity.
  - rewrite HA; [reflexivity|]. intros [cs Hcs]. discriminate Hcs.
Defined.

Lemma intersection_witness :
  Catalog_wf cat_ds1 ∧ Catalog_wf cat_same ∧ Catalog_wf cat_other ∧
  (∃ C next', Catalog_intersection cat_ds1 cat_same 4%nat = (Ok C, next') ∧
     has_pair C "ds1" 1 ∧ ¬ has_pair C "ds1" 2) ∧
  (∃ next', Catalog_intersection cat_ds1 cat_other 4%nat = (Raise AssertionError, next')).
Proof.
  split; [exact cat_ds1_wf|]. split; [exact cat_same_wf|]. split; [exact cat_other_wf|].
  split.
  - destruct (proj1 (intersection_spec cat_ds1 cat_same 4%nat cat_ds1_wf cat_same_wf))
      as (C & next' & Hrun & _ & _ & Hpairs & _).
    { intros k v sa sb Hsa Hsb.
      apply payload_put_empty in Hsb as (-> & -> & ->).
      assert (Hcsv : payload cat_ds1 "ds1" 1 = Some source_csv) by reflexivity.
      congruence. }
    exists C, next'. split; [exact Hrun|]. rewrite !Hpairs. split.
    + split; eexists; reflexivity.
    + intros [_ [cs Hcs]]. discriminate Hcs.
  - apply (proj2 (intersection_spec cat_ds1 cat_other 4%nat cat_ds1_wf cat_other_wf)).
    exists "ds1", 1, source_csv, source_json.
    split; [reflexivity|]. split; [reflexivity|]. discriminate.
Defined.

Lemma join_witness :
  Catalog_wf cat_ds1 ∧ Catalog_wf cat_ds2 ∧ Catalog_wf cat_same ∧
  (∃ C next', Catalog_join cat_ds1 cat_ds2 4%nat = (Ok C, next') ∧
     Catalog_join cat_ds1 cat_ds2 4%nat = Catalog_union cat_ds1 cat_ds2 7%nat) ∧
  (∃ next', Catalog_join cat_ds1 cat_same 4%nat = (Raise AssertionError, next')).
Proof.
  split; [exact cat_ds1_wf|]. split; [exact cat_ds2_wf|]. split; [exact cat_same_wf|].
  split.
  - destruct (proj1 (join_spec cat_ds1 cat_ds2 4%nat cat_ds1_wf cat_ds2_wf))
      as (C & next' & Hrun & _ & _ & Hunion & _).
    { intros k v [[cs1 H1] [s2 H2]%has_pair_payload].
      apply payload_put_empty in H2 as (-> & -> & _). discriminate H1. }
    exists C, next'. split; [exact Hrun | exact Hunion].
  - apply (proj2 (join_spec cat_ds1 cat_same 4%nat cat_ds1_wf cat_same_wf)).
    exists "ds1", 1. split; eexists; reflexivity.
Defined.

Lemma difference_witness :
  Catalog_wf cat_ds1 ∧ Catalog_wf cat_same ∧
  ∃ C next', Catalog_difference cat_ds1 cat_same 4%nat = (Ok C, next') ∧
    has_pair C "ds1" 2 ∧ ¬ has_pair C "ds1" 1 ∧ payload C "ds1" 2 = Some source_json.
Proof.
  split; [exact cat_ds1_wf|]. split; [exact cat_same_wf|].
  destruct (proj1 (difference_spec cat_ds1 cat_same 4%nat cat_ds1_wf cat_same_wf))
    as (C & next' & Hrun & _ & _ & Hpairs & HA & _).
  exists C, next'. split; [exact Hrun|].
  assert (H2 : has_pair cat_ds1 "ds1" 2) by (eexists; reflexivity).
  assert (N2 : ¬ has_pair cat_same "ds1" 2) by (intros [cs Hcs]; discriminate Hcs).
  split; [|split].
  - apply Hpairs. left. split; [exact H2 | exact N2].
  - rewrite Hpairs. intros [[_ Hn]|[_ Hn]]; apply Hn; eexists; reflexivity.
  - rewrite (HA "ds1" 2 H2 N2). reflexivity.
Defined.

Lemma getitem_latest_witness :
  Catalog_wf cat_ds1 ∧ Catalog___contains__ cat_ds1 "ds1" = true ∧
  ∃ cs versions, Catalog___getitem__ cat_ds1 "ds1" = Ok (Found cs versions) ∧
    is_latest cat_ds1 "ds1" cs ∧ version cs = 2.
Proof.
  split; [exact cat_ds1_wf|]. split; [reflexivity|].
  destruct (proj1 (getitem_latest_spec cat_ds1 "ds1" cat_ds1_wf eq_refl))
    as (cs & versions & Hget & Hlatest).
  exists cs, versions. split; [exact Hget|]. split; [exact Hlatest|].
  vm_compute in Hget. injection Hget as <- _. reflexivity.
Defined.

Lemma getitem_missing_witness :
  Catalog___contains__ cat_ds1 "missing" = false ∧
  ∃ dummy, Catalog___getitem__ cat_ds1 "missing" = Ok (NotFound dummy) ∧
    _identifier dummy = "missing" ∧ _catalog dummy = 0%nat ∧
    DummyCatalogSource___contains__ dummy 1 = false.
Proof.
  split; [reflexivity|].
  destruct (getitem_missing_spec cat_ds1 "missing" eq_refl)
    as (dummy & Hget & Hid & Hcat & Hin).
  exists dummy. split; [exact Hget|]. split; [exact Hid|]. split; [exact Hcat|].
  exact (proj1 (Hin 1)).
Defined.

Lemma placeholder_assign_witness :
  Catalog___contains__ cat_ds1 "missing" = false ∧
  ∃ dummy, Catalog___getitem__ cat_ds1 "missing" = Ok (NotFound dummy) ∧
    (∃ C', DummyCatalogSource___setitem__ dummy 1 source_csv cat_ds1 = (Ok (), C') ∧
       (∀ v', has_pair C' "missing" v' ↔ v' = 1) ∧
       payload C' "missing" 1 = Some source_csv) ∧
    DummyCatalogSource___setitem__ dummy 0 source_csv cat_ds1 = (Raise AssertionError, cat_ds1).
Proof.
  split; [reflexivity|].
  destruct (placeholder_assign_spec cat_ds1 "missing" source_csv 1 eq_refl)
    as (dummy & Hget & Hpos & _).
  destruct (Hpos ltac:(lia)) as (C' & Hrun & _ & _ & Hone & Hpay & _).
  exists dummy. split; [exact Hget|]. split.
  - exists C'. split; [exact Hrun|]. split; [exact Hone | exact Hpay].
  - destruct (placeholder_assign_spec cat_ds1 "missing" source_csv 0 eq_refl)
      as (dummy0 & Hget0 & _ & Hneg).
    rewrite Hget in Hget0. injection Hget0 as <-. apply Hneg. lia.
Defined.

Lemma slice_witness :
  Catalog_wf cat_ds1 ∧
  (∃ C next', Catalog_slice cat_ds1 ["ds1"] 4%nat = (Ok C, next') ∧
     payload C "ds1" 1 = Some source_csv ∧ payload C "ds1" 2 = Some source_json ∧
     Catalog___contains__ C "ds2" = false) ∧
  (∃ next', Catalog_slice cat_ds1 ["ds1"; "ds2"] 4%nat = (Raise AttributeError, next')).
Proof.
  split; [exact cat_ds1_wf|]. split.
  - destruct (proj1 (slice_spec cat_ds1 ["ds1"] 4%nat cat_ds1_wf))
      as (C & next' & Hrun & _ & _ & Hkeys & Hin & _).
    { intros k ->%list_elem_of_singleton. reflexivity. }
    exists C, next'. split; [exact Hrun|].
    assert (Hds1 : "ds1" ∈ ["ds1"]) by (by left).
    split; [|split].
    + rewrite (proj2 (Hin "ds1" 1 Hds1)). reflexivity.
    + rewrite (proj2 (Hin "ds1" 2 Hds1)). reflexivity.
    + apply not_true_is_false. rewrite Hkeys. intros Hds2%list_elem_of_singleton.
      discriminate Hds2.
  - apply (proj2 (slice_spec cat_ds1 ["ds1"; "ds2"] 4%nat cat_ds1_wf)).
    exists "ds2". split; [right; left | reflexivity].
Defined.

Lemma get_driver_witness :
  CatalogSource_get_driver registry (CatalogSource___init__ source_json "ds1" 0%nat 2)
    {[ "path" := "b.json" ]}
  = Ok ("json", 0%nat, {[ "path" := "b.json" ]}) ∧
  CatalogSource_get_driver registry nonexistent_source ∅
  = Raise (ValueError "Driver nonexistent not found.").
Proof.
  split.
  - rewrite (proj1 (get_driver_spec registry (CatalogSource___init__ source_json "ds1" 0%nat 2)
                      {[ "path" := "b.json" ]}) [csv_driver] json_driver []);
      [reflexivity | reflexivity | | reflexivity].
    intros c ->%list_elem_of_singleton. discriminate.
  - apply (proj2 (proj2 (get_driver_spec registry nonexistent_source ∅))).
    intros c Hc. simpl in Hc. apply elem_of_cons in Hc as [->|Hc]; [discriminate|].
    apply list_elem_of_singleton in Hc as ->. discriminate.
Defined.

Lemma setitem_replaces_witness :
  ∃ C', Catalog___setitem__ "ds1" source_csv cat_ds1 = (Ok (), C') ∧
    has_pair cat_ds1 "ds1" 2 ∧ ¬ has_pair C' "ds1" 2 ∧
    payload C' "ds1" 1 = Some source_csv.
Proof.
  destruct (setitem_replaces_spec cat_ds1 "ds1" source_csv)
    as (C' & Hrun & _ & _ & Hone & Hpay & _).
  exists C'. split; [exact Hrun|]. split; [eexists; reflexivity|].
  split; [|exact Hpay]. intros H2. apply Hone in H2. discriminate H2.
Defined.

(** ** The further properties on the examples *)

Lemma cat_ds1_ds2_disjoint : Catalog_disjoint cat_ds1 cat_ds2.
Proof.
  intros k v [[cs1 H1] [s2 H2]%has_pair_payload].
  apply payload_put_empty in H2 as (-> & -> & _). discriminate H1.
Defined.

Lemma example_reads (paths : list string) : reads example_read example_loaded paths.
Proof.
  intros file n _. unfold example_read.
  destruct (Catalog_copy_run (example_loaded file) n) as (c & Hrun & _ & Hlook & Hwf).
  exists c, (S n). split; [exact Hrun|]. split.
  - apply Hwf. unfold example_loaded.
    destruct (String.eqb file "a.yaml"); [exact cat_ds1_wf | exact cat_ds2_wf].
  - intros k v. exact (proj1 (payload_copy _ _ n k v Hlook)).
Defined.

Lemma filter_witness :
  Catalog_wf cat_ds1 ∧
  ∃ C next',
    Catalog_filter cat_ds1 (fun cs => bool_decide (version cs = 2)) 4%nat = (Ok C, next') ∧
    payload C "ds1" 2 = Some source_json ∧ payload C "ds1" 1 = None.
Proof.
  split; [exact cat_ds1_wf|].
  destruct (filter_spec cat_ds1 (fun cs => bool_decide (version cs = 2)) 4%nat cat_ds1_wf)
    as (C & next' & Hrun & _ & _ & Hpay).
  exists C, next'. split; [exact Hrun|]. split; rewrite Hpay; reflexivity.
Defined.

Lemma Catalog___eq___witness :
  Catalog_wf cat_ds1 ∧ Catalog_wf cat_same ∧
  ∃ next', Catalog___eq__ cat_ds1 cat_same 4%nat = (Ok false, next').
Proof.
  split; [exact cat_ds1_wf|]. split; [exact cat_same_wf|].
  destruct (Catalog___eq___spec cat_ds1 cat_same 4%nat cat_ds1_wf cat_same_wf)
    as (b & next' & Hrun & Hiff).
  exists next'. destruct b; [|exact Hrun].
  pose proof (proj1 Hiff eq_refl "ds1" 2) as Hsame. discriminate Hsame.
Defined.

Lemma delitem_witness :
  Catalog___delitem__ "missing" cat_ds1 = (Raise KeyError, cat_ds1) ∧
  ∃ C', Catalog___delitem__ "ds1" cat_ds1 = (Ok (), C') ∧
    ¬ has_pair C' "ds1" 1 ∧ ¬ has_pair C' "ds1" 2 ∧ Catalog___len__ C' = 0%nat.
Proof.
  split; [exact (proj1 (delitem_spec cat_ds1 "missing") eq_refl)|].
  destruct (proj2 (delitem_spec cat_ds1 "ds1") eq_refl) as (C' & Hrun & _ & Hnone & _ & Hlen).
  exists C'. split; [exact Hrun|]. split; [apply Hnone|]. split; [apply Hnone|].
  change (Catalog___len__ cat_ds1) with 1%nat in Hlen. lia.
Defined.

Lemma setitem_delitem_witness :
  Catalog___contains__ cat_ds1 "ds2" = false ∧
  ∃ C1, Catalog___setitem__ "ds2" source_csv cat_ds1 = (Ok (), C1) ∧
    Catalog___delitem__ "ds2" C1 = (Ok (), cat_ds1).
Proof.
  split; [reflexivity|].
  destruct (setitem_delitem_roundtrip cat_ds1 "ds2" source_csv eq_refl)
    as (C1 & Hset & _ & Hdel).
  exists C1. split; [exact Hset | exact Hdel].
Defined.

Lemma len_assign_version_witness :
  Catalog_wf cat_ds1 ∧
  (∃ C', assign_version "ds1" 7 source_csv cat_ds1 = Ok C' ∧ Catalog___len__ C' = 1%nat) ∧
  (∃ C', assign_version "ds2" 7 source_csv cat_ds1 = Ok C' ∧ Catalog___len__ C' = 2%nat).
Proof.
  split; [exact cat_ds1_wf|]. split.
  - destruct (len_assign_version cat_ds1 "ds1" 7 source_csv cat_ds1_wf ltac:(lia))
      as (C' & Hrun & Hlen).
    exists C'. split; [exact Hrun | exact Hlen].
  - destruct (len_assign_version cat_ds1 "ds2" 7 source_csv cat_ds1_wf ltac:(lia))
      as (C' & Hrun & Hlen).
    exists C'. split; [exact Hrun | exact Hlen].
Defined.

Lemma assign_version_read_back_witness :
  Catalog_wf cat_ds1 ∧
  ∃ C' top versions,
    assign_version "ds1" 1 source_json cat_ds1 = Ok C' ∧
    (item ← Catalog___getitem__ C' "ds1"; Item___getitem__ item 1)
      = Ok (CatalogSource___init__ source_json "ds1" 0%nat 1) ∧
    Catalog___getitem__ C' "ds1" = Ok (Found top versions) ∧
    top = CatalogSource___init__ source_json "ds1" 0%nat 2.
Proof.
  split; [exact cat_ds1_wf|].
  destruct (assign_version_read_back cat_ds1 "ds1" 1 source_json cat_ds1_wf ltac:(lia))
    as (C' & top & versions & Hrun & Hread & Hget & _ & Hold).
  exists C', top, versions. split; [exact Hrun|]. split; [exact Hread|].
  split; [exact Hget|].
  apply Hold; [|simpl; lia].
  destruct (getitem_found cat_ds1 "ds1" _ cat_ds1_wf eq_refl) as (old & Hgetold & Hin & Hmax & _).
  vm_compute in Hgetold. injection Hgetold as <-.
  eexists. split; [reflexivity|]. split; [reflexivity|]. exact Hmax.
Defined.

Lemma placeholder_reuse_witness :
  Catalog_wf cat_ds1 ∧ Catalog___contains__ cat_ds1 "new" = false ∧
  ∃ dummy C1 C2,
    Catalog___getitem__ cat_ds1 "new" = Ok (NotFound dummy) ∧
    DummyCatalogSource___setitem__ dummy 1 source_csv cat_ds1 = (Ok (), C1) ∧
    DummyCatalogSource___setitem__ dummy 2 source_json C1 = (Ok (), C2) ∧
    ¬ has_pair C2 "new" 1 ∧ has_pair C2 "new" 2.
Proof.
  split; [exact cat_ds1_wf|]. split; [reflexivity|].
  destruct (placeholder_reuse_replaces cat_ds1 "new" 1 2 source_csv source_json
              cat_ds1_wf eq_refl ltac:(lia) ltac:(lia) ltac:(lia))
    as (dummy & C1 & C2 & _ & Hget & H1 & H2 & Honly & _).
  exists dummy, C1, C2. split; [exact Hget|]. split; [exact H1|]. split; [exact H2|].
  split.
  - intros H. apply Honly in H. discriminate H.
  - apply Honly. reflexivity.
Defined.

Lemma intersection_self_witness :
  Catalog_wf cat_ds1 ∧
  ∃ C next' eq_next', Catalog_intersection cat_ds1 cat_ds1 4%nat = (Ok C, next') ∧
    Catalog___eq__ C cat_ds1 9%nat = (Ok true, eq_next').
Proof.
  split; [exact cat_ds1_wf|].
  exact (intersection_self cat_ds1 4%nat 9%nat cat_ds1_wf).
Defined.

Lemma intersection_comm_witness :
  Catalog_wf cat_ds1 ∧ Catalog_wf cat_other ∧
  ∃ n' m',
    Catalog_intersection cat_ds1 cat_other 4%nat = (Raise AssertionError, n') ∧
    Catalog_intersection cat_other cat_ds1 4%nat = (Raise AssertionError, m').
Proof.
  split; [exact cat_ds1_wf|]. split; [exact cat_other_wf|].
  destruct (intersection_comm cat_ds1 cat_other 4%nat 4%nat 4%nat cat_ds1_wf cat_other_wf)
    as [(C1 & C2 & n' & m' & e' & Hrun & _)|Hraise]; [|exact Hraise].
  vm_compute in Hrun. discriminate Hrun.
Defined.

Lemma union_comm_witness :
  Catalog_wf cat_ds1 ∧ Catalog_wf cat_other ∧
  ∃ U1 U2 n' m' e',
    Catalog_union cat_ds1 cat_other 4%nat = (Ok U1, n') ∧
    Catalog_union cat_other cat_ds1 4%nat = (Ok U2, m') ∧
    Catalog___eq__ U1 U2 8%nat = (Ok false, e').
Proof.
  split; [exact cat_ds1_wf|]. split; [exact cat_other_wf|].
  destruct (union_comm_iff cat_ds1 cat_other 4%nat 4%nat 8%nat cat_ds1_wf cat_other_wf)
    as (U1 & U2 & n' & m' & b & e' & H1 & H2 & Heq & Hiff).
  exists U1, U2, n', m', e'. split; [exact H1|]. split; [exact H2|].
  destruct b; [|exact Heq].
  pose proof (proj1 Hiff eq_refl "ds1" 1 source_csv source_json eq_refl eq_refl) as Hsame.
  discriminate Hsame.
Defined.

Lemma union_idempotent_witness :
  Catalog_wf cat_ds1 ∧
  ∃ U n' e', Catalog_union cat_ds1 cat_ds1 4%nat = (Ok U, n') ∧
    Catalog___eq__ U cat_ds1 8%nat = (Ok true, e').
Proof.
  split; [exact cat_ds1_wf|].
  destruct (union_idempotent cat_ds1 4%nat 8%nat cat_ds1_wf) as (U & n' & e' & Hrun & _ & Heq).
  exists U, n', e'. split; [exact Hrun | exact Heq].
Defined.

Lemma difference_comm_witness :
  Catalog_wf cat_ds1 ∧ Catalog_wf cat_ds2 ∧
  ∃ D1 D2 n' m' e',
    Catalog_difference cat_ds1 cat_ds2 4%nat = (Ok D1, n') ∧
    Catalog_difference cat_ds2 cat_ds1 4%nat = (Ok D2, m') ∧
    Catalog___eq__ D1 D2 8%nat = (Ok true, e').
Proof.
  split; [exact cat_ds1_wf|]. split; [exact cat_ds2_wf|].
  destruct (difference_comm cat_ds1 cat_ds2 4%nat 4%nat 8%nat cat_ds1_wf cat_ds2_wf)
    as (D1 & D2 & n' & m' & e' & H1 & H2 & _ & Heq).
  exists D1, D2, n', m', e'. split; [exact H1|]. split; [exact H2 | exact Heq].
Defined.

Lemma slice_all_keys_witness :
  Catalog_wf cat_ds1 ∧
  (∃ C n' e', Catalog_slice cat_ds1 ["ds1"] 4%nat = (Ok C, n') ∧
     Catalog___eq__ C cat_ds1 8%nat = (Ok true, e')) ∧
  (∃ E n', Catalog_slice cat_ds1 [] 4%nat = (Ok E, n') ∧ Catalog___len__ E = 0%nat).
Proof.
  split; [exact cat_ds1_wf|].
  destruct (slice_all_keys cat_ds1 4%nat 8%nat cat_ds1_wf)
    as [(C & n' & e' & Hrun & _ & Heq) Hempty].
  split; [|exact Hempty]. exists C, n', e'. split; [exact Hrun | exact Heq].
Defined.

Lemma from_plugins_witness :
  (∃ C next', Catalog_from_plugins example_plugins 0%nat = (Ok C, next') ∧
     payload C "ds1" 1 = Some source_json ∧ has_pair C "ds2" 3 ∧ ¬ has_pair C "ds2" 1) ∧
  (∃ next',
     Catalog_from_plugins [[(CatalogKey___new__ "ds1", source_csv)]] 0%nat
     = (Raise AssertionError, next')).
Proof.
  split.
  - destruct (proj1 (from_plugins_spec example_plugins 0%nat))
      as (C & next' & Hrun & _ & _ & Hpairs & Hlast).
    { intros key s Hin. simpl in Hin.
      repeat (apply elem_of_cons in Hin as [[= -> ->]|Hin]; [simpl; lia|]).
      by apply elem_of_nil in Hin. }
    exists C, next'. split; [exact Hrun|]. split; [|split].
    + apply (Hlast [(CatalogKey.mk "ds1" 1, source_csv); (CatalogKey.mk "ds2" 3, source_csv)]
               (CatalogKey.mk "ds1" 1) source_json []); [reflexivity|].
      intros key' s' Hin. by apply elem_of_nil in Hin.
    + apply Hpairs. exists source_csv. simpl. right. left.
    + intros [s Hin]%Hpairs. simpl in Hin.
      repeat (apply elem_of_cons in Hin as [Hin|Hin]; [discriminate Hin|]).
      by apply elem_of_nil in Hin.
  - apply (proj2 (proj2 (from_plugins_spec [[(CatalogKey___new__ "ds1", source_csv)]] 0%nat))
             "ds1" source_csv).
    simpl. left.
Defined.

Lemma from_files_witness :
  reads example_read example_loaded ["a.yaml"; "b.yaml"] ∧
  (∃ C next', Catalog_from_files example_read ["a.yaml"; "b.yaml"] 0%nat = (Ok C, next') ∧
     payload C "ds1" 2 = Some source_json ∧ payload C "ds2" 1 = Some source_csv) ∧
  (∃ next',
     Catalog_from_files example_read ["a.yaml"; "a.yaml"] 0%nat = (Raise AssertionError, next')).
Proof.
  split; [apply example_reads|]. split.
  - destruct (proj1 (from_files_spec example_read example_loaded ["a.yaml"; "b.yaml"] 0%nat
                       (example_reads _)))
      as (C & next' & Hrun & _ & Hpay).
    { apply FOP_cons; [|apply FOP_cons; [apply List.Forall_nil | apply FOP_nil]].
      apply List.Forall_cons; [exact cat_ds1_ds2_disjoint | apply List.Forall_nil]. }
    exists C, next'. split; [exact Hrun|]. split; apply Hpay.
    + exists "a.yaml". split; [left | reflexivity].
    + exists "b.yaml". split; [right; left | reflexivity].
  - apply (proj2 (from_files_spec example_read example_loaded ["a.yaml"; "a.yaml"] 0%nat
                    (example_reads _)) [] "a.yaml" [] "a.yaml" [] "ds1" 1 eq_refl);
      eexists; reflexivity.
Defined.

Lemma from_dirs_witness :
  str_endswith "a.yaml" ".yaml" = true ∧ str_endswith "notes.txt" ".yaml" = false ∧
  str_endswith "yaml" ".yaml" = false ∧
  Catalog_from_dirs (fun _ => Ok ["a.yaml"; "notes.txt"; "b.yaml"]) example_read ["dir"] 0%nat =
  Catalog_from_files example_read ["a.yaml"; "b.yaml"] 0%nat ∧
  Catalog_from_dirs (fun _ => Raise KeyError) example_read ["dir"] 0%nat = (Raise KeyError, 0%nat).
Proof.
  split; [reflexivity|]. split; [reflexivity|]. split; [reflexivity|]. split.
  - apply (proj1 (from_dirs_spec (fun _ => Ok ["a.yaml"; "notes.txt"; "b.yaml"])
                    example_read ["dir"] 0%nat)
             (fun _ => ["a.yaml"; "notes.txt"; "b.yaml"])).
    reflexivity.
  - apply (proj2 (proj2 (from_dirs_spec (fun _ => Raise KeyError) example_read ["dir"] 0%nat))
             [] "dir" [] KeyError eq_refl); [|reflexivity].
    intros q Hq. by apply elem_of_nil in Hq.
Defined.

Lemma getitem_get_driver_witness :
  Catalog_wf cat_ds1 ∧ Catalog___contains__ cat_ds1 "ds1" = true ∧
  ∃ cs versions, Catalog___getitem__ cat_ds1 "ds1" = Ok (Found cs versions) ∧
    CatalogSource_get_driver registry cs ∅ = Ok ("json", 0%nat, {[ "path" := "a.json" ]}).
Proof.
  split; [exact cat_ds1_wf|]. split; [reflexivity|].
  destruct (getitem_get_driver cat_ds1 "ds1" registry ∅ cat_ds1_wf eq_refl)
    as (cs & versions & Hget & Hdriver).
  exists cs, versions. split; [exact Hget|].
  vm_compute in Hget. injection Hget as <- _.
  rewrite (Hdriver [csv_driver] json_driver []); [reflexivity | reflexivity | | reflexivity].
  intros c ->%list_elem_of_singleton. discriminate.
Defined.
